(** * Laserengraver: the geometric toolpath engine

    A shallow embedding of [laserengraver_geometry.py],
    [laserengraver_gcode.py], [laserengraver_orientation.py] and of
    [LaserEngraver._path_to_gcode] in [laserengraver.py].

    Python floats are read as real numbers: a decimal literal such as
    [1e-6] is the rational it denotes, [math.sqrt], [math.hypot] and
    [x ** 0.5] are [sqrt], and rounding does not exist.  Every statement
    below is therefore a statement about the program in exact arithmetic.
    The text of a G-code line is kept as its command word followed by its
    fields; the decimal rendering of a field value ([:.4f]) is not
    modelled. *)

From Stdlib Require Import Reals Lra Lia ZArith List String.
From stdpp Require Import base gmap.
From Equations Require Import Equations.
From Equations.Prop Require Logic.
Import ListNotations.

Local Open Scope R_scope.

(** ** laserengraver_geometry.py *)

Module Geometry.

(** A Python list [[x, y]]. *)
Definition point : Type := R * R.

(** [class P]: a point with vector operations. *)
Record P : Type := mkP { P_x : R; P_y : R }.

(** [P(x)] for a list [x] (the one-argument constructor). *)
Definition P_of (x : point) : P := mkP (fst x) (snd x).

Definition P_add (a b : P) : P := mkP (P_x a + P_x b) (P_y a + P_y b).
Definition P_sub (a b : P) : P := mkP (P_x a - P_x b) (P_y a - P_y b).
(** [__mul__] with a [P] on the right: the dot product. *)
Definition P_dot (a b : P) : R := P_x a * P_x b + P_y a * P_y b.
(** [__mul__] with a number on the right. *)
Definition P_mul (a : P) (k : R) : P := mkP (P_x a * k) (P_y a * k).
Definition P_truediv (a : P) (k : R) : P := mkP (P_x a / k) (P_y a / k).
Definition mag (a : P) : R := sqrt (P_x a ^ 2 + P_y a ^ 2).
Definition unit (a : P) : P :=
  let m := mag a in
  if Rlt_dec 0 m then P_truediv a m else mkP 0 0.
Definition ccw (a : P) : P := mkP (- P_y a) (P_x a).
Definition to_list (a : P) : point := (P_x a, P_y a).

(** A node of a cubic super path, the list [[handle_in, point, handle_out]]:
    [sp_0], [sp_1], [sp_2] are [sp[0]], [sp[1]], [sp[2]]. *)
Record node : Type := mkNode { sp_0 : point; sp_1 : point; sp_2 : point }.

(** The eight coefficients [ax, ay, bx, by, cx, cy, dx, dy]. *)
Record coefficients : Type := mkCoefficients {
  c_ax : R; c_ay : R; c_bx : R; c_by : R;
  c_cx : R; c_cy : R; c_dx : R; c_dy : R }.

Definition bezier_parameterize (bezier : point * point * point * point)
  : coefficients :=
  let '(b0, b1, b2, b3) := bezier in
  let '(x0, y0) := b0 in
  let '(x1, y1) := b1 in
  let '(x2, y2) := b2 in
  let '(x3, y3) := b3 in
  let cx := 3 * (x1 - x0) in
  let bx := 3 * (x2 - x1) - cx in
  let ax := x3 - x0 - cx - bx in
  let cy := 3 * (y1 - y0) in
  let by_ := 3 * (y2 - y1) - cy in
  let ay := y3 - y0 - cy - by_ in
  mkCoefficients ax ay bx by_ cx cy x0 y0.

Definition csp_parameterize (sp1 sp2 : node) : coefficients :=
  bezier_parameterize (sp_1 sp1, sp_2 sp1, sp_0 sp2, sp_1 sp2).

Definition csp_at_t (sp1 sp2 : node) (t : R) : point :=
  let k := csp_parameterize sp1 sp2 in
  let x := c_ax k * t ^ 3 + c_bx k * t ^ 2 + c_cx k * t + c_dx k in
  let y := c_ay k * t ^ 3 + c_by k * t ^ 2 + c_cy k * t + c_dy k in
  (x, y).

(** One step of De Casteljau: [[a[0] + (b[0] - a[0]) * t, a[1] + (b[1] - a[1]) * t]]. *)
Definition lerp (a b : point) (t : R) : point :=
  (fst a + (fst b - fst a) * t, snd a + (snd b - snd a) * t).

Definition csp_split (sp1 sp2 : node) (t : R) : node * node * node :=
  let p0 := sp_1 sp1 in
  let p1 := sp_2 sp1 in
  let p2 := sp_0 sp2 in
  let p3 := sp_1 sp2 in
  let p01 := lerp p0 p1 t in
  let p12 := lerp p1 p2 t in
  let p23 := lerp p2 p3 t in
  let p012 := lerp p01 p12 t in
  let p123 := lerp p12 p23 t in
  let p0123 := lerp p012 p123 t in
  let sp_left := mkNode (sp_0 sp1) (sp_1 sp1) p01 in
  let sp_mid := mkNode p012 p0123 p123 in
  let sp_right := mkNode p23 (sp_1 sp2) (sp_2 sp2) in
  (sp_left, sp_mid, sp_right).

(** The dictionaries [{'type': 'line', ...}] and [{'type': 'arc', ...}]. *)
Inductive primitive : Type :=
| line (start end_ : point)
| arc (start end_ center : point) (angle : R).

Definition fit_biarc (sp1 sp2 : node) : option (list primitive) :=
  let P0 := P_of (sp_1 sp1) in
  let P3 := P_of (sp_1 sp2) in
  let T0 := P_sub (P_of (sp_2 sp1)) P0 in
  let T3 := P_sub (P_of (sp_1 sp2)) (P_of (sp_0 sp2)) in
  if Rlt_dec (mag T0) (1 / 1000000) then None
  else if Rlt_dec (mag T3) (1 / 1000000) then None
  else
    let T0 := unit T0 in
    let T3 := unit T3 in
    let V := P_sub P3 P0 in
    if Rlt_dec (Rabs (P_x T0 * P_y T3 - P_y T0 * P_x T3)) (1 / 1000000)
    then None
    else
      let t := 1 / 2 in
      let P1 := P_add P0 (P_mul V t) in
      Some [ arc (to_list P0) (to_list P1)
                 (to_list (P_truediv (P_add P0 P1) 2)) 0;
             arc (to_list P1) (to_list P3)
                 (to_list (P_truediv (P_add P1 P3) 2)) 0 ].

(** The chord length and the two control-point distances computed by
    [split_and_approximate]. *)
Definition chord_length (p0 p3 : point) : R :=
  sqrt ((fst p3 - fst p0) ^ 2 + (snd p3 - snd p0) ^ 2).

Definition control_distance (p0 p p3 : point) : R :=
  Rabs ((snd p - snd p0) * (fst p3 - fst p0)
        - (fst p - fst p0) * (snd p3 - snd p0)) / chord_length p0 p3.

(** [split_and_approximate], the closure of [biarc_approximation];
    [max_depth] is its free variable.  The depths are Python integers.
    [if result:] holds for a non-empty list only. *)
Equations? split_and_approximate (max_depth : Z) (sp1 sp2 : node) (depth : Z)
  : list primitive by wf (Z.to_nat (max_depth - depth)) lt :=
  split_and_approximate max_depth sp1 sp2 depth
    with Z_ge_dec depth max_depth => {
    | left _ := [line (sp_1 sp1) (sp_1 sp2)];
    | right _ :=
        let p0 := sp_1 sp1 in
        let p1 := sp_2 sp1 in
        let p2 := sp_0 sp2 in
        let p3 := sp_1 sp2 in
        if Rlt_dec (chord_length p0 p3) (1 / 100) then [line p0 p3]
        else
          let d1 := control_distance p0 p1 p3 in
          let d2 := control_distance p0 p2 p3 in
          if Rlt_dec (Rmax d1 d2) (1 / 10) then [line p0 p3]
          else
            match fit_biarc sp1 sp2 with
            | Some (a :: result) => a :: result
            | _ =>
                split_and_approximate max_depth
                  (fst (fst (csp_split sp1 sp2 (1 / 2))))
                  (snd (fst (csp_split sp1 sp2 (1 / 2)))) (depth + 1)
                ++ split_and_approximate max_depth
                  (snd (fst (csp_split sp1 sp2 (1 / 2))))
                  (snd (csp_split sp1 sp2 (1 / 2))) (depth + 1)
            end }.
Proof. all: lia. Qed.

Definition biarc_approximation (sp1 sp2 : node) (max_depth : Z)
  : list primitive :=
  split_and_approximate max_depth sp1 sp2 0.

(** [P.rot]. *)
Definition rot (a : P) (theta : R) : P :=
  let c := cos theta in
  let s := sin theta in
  mkP (P_x a * c - P_y a * s) (P_x a * s + P_y a * c).

(** The test [abs(fx) < 1e-10 and abs(fy) < 1e-10] of
    [csp_normalized_slope]. *)
Definition vanishes (fx fy : R) : bool :=
  if Rlt_dec (Rabs fx) (1 / 10000000000)
  then if Rlt_dec (Rabs fy) (1 / 10000000000) then true else false
  else false.

(** The block under [# Normalize], which every path of
    [csp_normalized_slope] that does not return early falls into. *)
Definition normalize_slope (fx fy : R) : point :=
  let length := sqrt (fx ^ 2 + fy ^ 2) in
  if Rlt_dec 0 length then (fx / length, fy / length) else (1, 0).

Definition csp_normalized_slope (sp1 sp2 : node) (t : R) : point :=
  let k := csp_parameterize sp1 sp2 in
  let fx := 3 * c_ax k * t ^ 2 + 2 * c_bx k * t + c_cx k in
  let fy := 3 * c_ay k * t ^ 2 + 2 * c_by k * t + c_cy k in
  if vanishes fx fy then
    let fx := 6 * c_ax k * t + 2 * c_bx k in
    let fy := 6 * c_ay k * t + 2 * c_by k in
    if vanishes fx fy then
      let fx := 6 * c_ax k in
      let fy := 6 * c_ay k in
      if vanishes fx fy then (1, 0) else normalize_slope fx fy
    else normalize_slope fx fy
  else normalize_slope fx fy.

Definition csp_normalized_normal (sp1 sp2 : node) (t : R) : point :=
  let slope := csp_normalized_slope sp1 sp2 t in
  (- snd slope, fst slope).


(** [recursive_length], the closure of [csp_length]; [tolerance] is its
    free variable.  The sum over [range(1, 4)] starts from 0. *)
Equations? recursive_length (tolerance : R) (sp1 sp2 : node) (depth : Z)
  : R by wf (Z.to_nat (11 - depth)) lt :=
  recursive_length tolerance sp1 sp2 depth with Z_gt_dec depth 10 => {
    | left _ := chord_length (sp_1 sp1) (sp_1 sp2);
    | right _ :=
        let chord := chord_length (sp_1 sp1) (sp_1 sp2) in
        let poly_length :=
          0 + chord_length (sp_1 sp1) (sp_2 sp1)
            + chord_length (sp_2 sp1) (sp_0 sp2)
            + chord_length (sp_0 sp2) (sp_1 sp2) in
        if Rlt_dec (poly_length - chord) tolerance then poly_length
        else
          recursive_length tolerance
            (fst (fst (csp_split sp1 sp2 (1 / 2))))
            (snd (fst (csp_split sp1 sp2 (1 / 2)))) (depth + 1)
          + recursive_length tolerance
              (snd (fst (csp_split sp1 sp2 (1 / 2))))
              (snd (csp_split sp1 sp2 (1 / 2))) (depth + 1) }.
Proof. all: lia. Qed.

Definition csp_length (sp1 sp2 : node) (tolerance : R) : R :=
  recursive_length tolerance sp1 sp2 0.

(** The module functions [normalize], [dot] and [cross] on lists. *)
Definition normalize (v : point) : point :=
  let length := sqrt (fst v ^ 2 + snd v ^ 2) in
  if Rlt_dec 0 length then (fst v / length, snd v / length) else (0, 0).
Definition dot (a b : point) : R := fst a * fst b + snd a * snd b.

End Geometry.

(** ** laserengraver_gcode.py *)

Module Gcode.

(** One line of G-code: the command word and, in order, its fields, each a
    letter with its value ([" ".join(parts)] before the values are
    rendered). *)
Record gline : Type := mkLine { word : string; fields : list (string * R) }.

(** [class GCodeGenerator]: the last emitted coordinates. *)
Record GCodeGenerator : Type := mkGen {
  current_x : option R;
  current_y : option R }.

(** [GCodeGenerator(options)]. *)
Definition new_generator : GCodeGenerator := mkGen None None.

(** [current is None or abs(v - current) > 1e-6]. *)
Definition changed (current : option R) (v : R) : bool :=
  match current with
  | None => true
  | Some c => if Rgt_dec (Rabs (v - c)) (1 / 1000000) then true else false
  end.

Definition move_to (self : GCodeGenerator) (x y : R) (rapid : bool)
  : gline * GCodeGenerator :=
  let code := if rapid then "G0"%string else "G1"%string in
  let '(parts, self) :=
    if changed (current_x self) x
    then ([("X"%string, x)], mkGen (Some x) (current_y self))
    else ([], self) in
  let '(parts, self) :=
    if changed (current_y self) y
    then (parts ++ [("Y"%string, y)], mkGen (current_x self) (Some y))
    else (parts, self) in
  (mkLine code parts, self).

Definition line_to (self : GCodeGenerator) (x y : R) (feed : option R)
  : gline * GCodeGenerator :=
  let '(code, self) := move_to self x y false in
  match feed with
  | Some f => (mkLine (word code) (fields code ++ [("F"%string, f)]), self)
  | None => (code, self)
  end.

Definition arc_to (self : GCodeGenerator) (x y i j : R) (clockwise : bool)
  (feed : option R) : gline * GCodeGenerator :=
  let code := if clockwise then "G02"%string else "G03"%string in
  let '(parts, self) :=
    if changed (current_x self) x
    then ([("X"%string, x)], mkGen (Some x) (current_y self))
    else ([], self) in
  let '(parts, self) :=
    if changed (current_y self) y
    then (parts ++ [("Y"%string, y)], mkGen (current_x self) (Some y))
    else (parts, self) in
  let parts := parts ++ [("I"%string, i); ("J"%string, j)] in
  let parts :=
    match feed with
    | Some f => parts ++ [("F"%string, f)]
    | None => parts
    end in
  (mkLine code parts, self).

(** Whether a line carries a field with the given letter. *)
Definition has_field (letter : string) (l : gline) : bool :=
  existsb (fun f => String.eqb (fst f) letter) (fields l).

(** [class GCodeFormatter]: its list [lines].  Lines of G-code are ASCII
    text. *)
Definition GCodeFormatter : Type := list string.

(** [GCodeFormatter()]. *)
Definition new_formatter : GCodeFormatter := [].

(** [add_line]: [if line:] holds for a non-empty string. *)
Definition add_line (self : GCodeFormatter) (line : string) : GCodeFormatter :=
  if String.eqb line "" then self else self ++ [line].

Definition add_comment (self : GCodeFormatter) (comment : string)
  : GCodeFormatter :=
  self ++ [("; " ++ comment)%string].

Definition add_blank_line (self : GCodeFormatter) : GCodeFormatter :=
  self ++ [""%string].

(** [str.isspace] on an ASCII character: tab to carriage return, the four
    separators 28 to 31, and the space. *)
Definition isspace (c : Ascii.ascii) : bool :=
  let n := Ascii.nat_of_ascii c in
  ((9 <=? n)%nat && (n <=? 13)%nat) || ((28 <=? n)%nat && (n <=? 32)%nat).

(** [not line.strip()]: nothing is left of the line once the white space
    at both ends is gone. *)
Definition is_blank (line : string) : bool :=
  forallb isspace (list_ascii_of_string line).

(** [line.startswith(';')]. *)
Definition is_comment (line : string) : bool := String.prefix ";" line.

(** [line in ['G90', 'G91', 'G21', 'G20']]. *)
Definition is_mode (line : string) : bool :=
  existsb (String.eqb line) ["G90"; "G91"; "G21"; "G20"]%string.

(** [line != last_command], where [last_command] starts as [None]. *)
Definition differs (line : string) (last_command : option string) : bool :=
  match last_command with
  | Some c => negb (String.eqb line c)
  | None => true
  end.

(** The body of the loop of [optimize], on the pair of [optimized] and
    [last_command]. *)
Definition optimize_step (state : list string * option string)
  (line : string) : list string * option string :=
  let '(optimized, last_command) := state in
  if match optimized with [] => is_blank line | _ => false end
  then (optimized, last_command)
  else if is_comment line then
    ((if differs line last_command then optimized ++ [line] else optimized),
     Some line)
  else if is_mode line then
    ((if differs line last_command then optimized ++ [line] else optimized),
     Some line)
  else (optimized ++ [line], Some line).

Definition optimize (self : GCodeFormatter) : list string :=
  fst (fold_left optimize_step self ([], None)).

(** [to_string]: the lines joined by newlines. *)
Definition to_string (self : GCodeFormatter) (optimize_ : bool) : string :=
  String.concat (String (Ascii.ascii_of_nat 10) EmptyString)
    (if optimize_ then optimize self else self).

End Gcode.

(** ** LaserEngraver._path_to_gcode (laserengraver.py) *)

Module Engraver.
Import Geometry Gcode.

(** What [_path_to_gcode] reads from the document: [svg.unittouu('1mm')]
    and the height [viewbox[3]]. *)
Record document : Type := mkDocument { px_per_mm : R; page_height_px : R }.

(** The options [_path_to_gcode] reads.  [curve_mode] is the string after
    [.strip().lower()]; [feed] is [self.tool["feed"]], which [effect] sets
    to [options.engraving_laser_speed]. *)
Record options : Type := mkOptions {
  curve_mode : string;
  polyline_segments : Z;
  biarc_max_split_depth : Z;
  feed : Z }.

(** [range(a, b)]. *)
Definition range (a b : Z) : list Z :=
  map (fun i => (a + Z.of_nat i)%Z) (seq 0 (Z.to_nat (b - a))).

(** The pairs [(subpath[i - 1], subpath[i])] for [i] in
    [range(1, len(subpath))]. *)
Fixpoint segments (subpath : list node) : list (node * node) :=
  match subpath with
  | sp1 :: ((sp2 :: _) as rest) => (sp1, sp2) :: segments rest
  | _ => []
  end.

Section PathToGcode.
Variable svg : document.
Variable opts : options.

Definition poly_segments : Z := Z.max 2 (polyline_segments opts).

(** [x = p[0] / px_per_mm] and [y = (page_height_px - p[1]) / px_per_mm]. *)
Definition out_x (p : point) : R := fst p / px_per_mm svg.
Definition out_y (p : point) : R :=
  (page_height_px svg - snd p) / px_per_mm svg.

Definition G1 (p : point) : gline :=
  mkLine "G1" [("X"%string, out_x p); ("Y"%string, out_y p);
               ("F"%string, IZR (feed opts))].

(** The body of [for arc in biarcs]. *)
Definition arc_to_gcode (a : primitive) : gline :=
  match a with
  | line _ end_ => G1 end_
  | arc start_arc end_ center angle =>
      let i_off := (fst center - fst start_arc) / px_per_mm svg in
      let j_off := - ((snd center - snd start_arc) / px_per_mm svg) in
      let direction :=
        if Rlt_dec angle 0 then "G02"%string else "G03"%string in
      mkLine direction [("X"%string, out_x end_); ("Y"%string, out_y end_);
                        ("I"%string, i_off); ("J"%string, j_off)]
  end.

(** The body of [for i in range(1, len(subpath))]. *)
Definition segment_to_gcode (sp1 sp2 : node) : list gline :=
  if String.eqb (curve_mode opts) "biarc"
  then map arc_to_gcode
         (biarc_approximation sp1 sp2 (biarc_max_split_depth opts))
  else map (fun s => G1 (csp_at_t sp1 sp2 (IZR s / IZR poly_segments)))
         (range 1 (poly_segments + 1)).

(** The body of [for subpath in csp]. *)
Definition subpath_to_gcode (subpath : list node) : list gline :=
  match subpath with
  | first :: _ :: _ =>
      mkLine "G0" [("X"%string, out_x (sp_1 first));
                   ("Y"%string, out_y (sp_1 first))]
      :: mkLine "M03" []
      :: concat (map (fun s => segment_to_gcode (fst s) (snd s))
                     (segments subpath))
      ++ [mkLine "M05" []]
  | _ => []
  end.

Definition _path_to_gcode (csp : list (list node)) : list gline :=
  concat (map subpath_to_gcode csp).

End PathToGcode.

End Engraver.

(** ** laserengraver_orientation.py *)

Module Orientation.
Import Geometry.

(** An element of the document tree, named by its position: the child
    indices on the way from the element up to the root, so that the root
    [self.svg] is [[]] and [getparent] drops the head. *)
Definition element : Type := list nat.
Definition svg_root : element := [].

Definition getparent (e : element) : option element :=
  match e with
  | [] => None
  | _ :: parent => Some parent
  end.

(** The elements reached by repeated [getparent], nearest first. *)
Fixpoint ancestors (e : element) : list element :=
  match e with
  | [] => []
  | _ :: parent => parent :: ancestors parent
  end.

(** [[svg_x, svg_y]] paired with [[gcode_x, gcode_y, gcode_z]]. *)
Definition correspondence : Type := point * (R * R * R).
Definition gcode_0 (c : correspondence) : R := fst (fst (snd c)).
Definition gcode_1 (c : correspondence) : R := snd (fst (snd c)).

(** [inkex.Transform] belongs to the host library and is not part of the
    repository.  A transform is kept as the operations added to it, in the
    order of the [add_*] calls.  Each [add_*] multiplies the matrix of the
    transform on the right by the matrix of its operation, as in an SVG
    transform list, so that the operation added last acts on a point
    first. *)
Inductive transform_op : Type :=
| Translate (tr_x tr_y : R)
| Scale (sc_x sc_y : R)
| Rotate (deg : R).

Definition Transform : Type := list transform_op.
Definition new_transform : Transform := [].
Definition add_translate (t : Transform) (tr_x tr_y : R) : Transform :=
  t ++ [Translate tr_x tr_y].
Definition add_scale (t : Transform) (sc_x sc_y : R) : Transform :=
  t ++ [Scale sc_x sc_y].
Definition add_rotate (t : Transform) (deg : R) : Transform :=
  t ++ [Rotate deg].

(** The plane maps of the three operations. *)
Definition translate_by (tr_x tr_y : R) (p : point) : point :=
  (fst p + tr_x, snd p + tr_y).
Definition scale_by (s : R) (p : point) : point := (fst p * s, snd p * s).
Definition rotate_by (theta : R) (p : point) : point :=
  (fst p * cos theta - snd p * sin theta,
   fst p * sin theta + snd p * cos theta).

Definition degrees (x : R) : R := x * (180 / PI).
Definition radians (x : R) : R := x * (PI / 180).

Definition apply_op (o : transform_op) (p : point) : point :=
  match o with
  | Translate tr_x tr_y => translate_by tr_x tr_y p
  | Scale sc_x sc_y => (fst p * sc_x, snd p * sc_y)
  | Rotate deg => rotate_by (radians deg) p
  end.

(** [Transform.apply_to_point]: the product of the matrices applied to
    the point, that is the operations from the last one added to the
    first. *)
Definition apply_to_point (t : Transform) (p : point) : point :=
  fold_right apply_op p t.

(** [math.atan2(y, x)] on the reals. *)
Definition atan2 (y x : R) : R :=
  if Rlt_dec 0 x then atan (y / x)
  else if Rlt_dec x 0 then
    if Rle_dec 0 y then atan (y / x) + PI else atan (y / x) - PI
  else if Rlt_dec 0 y then PI / 2
  else if Rlt_dec y 0 then - (PI / 2)
  else 0.

(** What a call gives back: a value, or a Python exception. *)
Inductive outcome (A : Type) : Type :=
| Return (a : A)
| Raise.
Arguments Return {A} a.
Arguments Raise {A}.

(** [class OrientationManager]: per layer the parsed orientation groups,
    and the cache of solved transforms. *)
Record OrientationManager : Type := mkManager {
  orientation_points : gmap element (list (list correspondence));
  transforms : gmap element Transform }.

(** [OrientationManager(svg)]. *)
Definition new_manager : OrientationManager := mkManager ∅ ∅.

(** [_parse_orientation_group], from the results of [_parse_point_group]
    on the point groups of the group. *)
Definition _parse_orientation_group (parsed : list (option correspondence))
  : option (list correspondence) :=
  let points := omap (fun p => p) parsed in
  if (length points =? 2)%nat || (length points =? 3)%nat
  then Some points else None.

Section Document.
(** [e.get(inkex.addNS('groupmode', 'inkscape')) == 'layer']. *)
Variable is_layer : element -> bool.

Definition _get_parent_layer (layer : element) : option element :=
  List.find is_layer (ancestors layer).

Definition _get_layer (e : element) : element :=
  match List.find is_layer (e :: ancestors e) with
  | Some l => l
  | None => svg_root
  end.

(** The loop of [find_orientation_points] over the groups found in
    the document, each with the parse results of its point groups. *)
Definition register_group
  (found : gmap element (list (list correspondence)))
  (group : element * list (option correspondence))
  : gmap element (list (list correspondence)) :=
  let layer := _get_layer (fst group) in
  match _parse_orientation_group (snd group) with
  | Some points =>
      <[ layer := default [] (found !! layer) ++ [points] ]> found
  | None => found
  end.

Definition find_orientation_points (self : OrientationManager)
  (groups : list (element * list (option correspondence)))
  : bool * OrientationManager :=
  let found := fold_left register_group groups ∅ in
  (negb (bool_decide (found = ∅)), mkManager found (transforms self)).

(** The [while current is not None] loop of [get_transform_for_layer]:
    the points it leaves in [points], [None] when it runs off the top. *)
Equations? lookup_points
  (found : gmap element (list (list correspondence))) (current : element)
  : outcome (option (list correspondence)) by wf (length current) lt :=
  lookup_points found current with found !! current => {
    | Some groups :=
        match groups with
        | [] => Raise
        | points :: _ => Return (Some points)
        end;
    | None with Logic.inspect (_get_parent_layer current) => {
        | exist _ (Some parent) Hparent := lookup_points found parent;
        | exist _ None _ := Return None } }.
Proof.
  unfold _get_parent_layer in Hparent.
  apply find_some in Hparent. destruct Hparent as [Hin _].
  clear -Hin. revert parent Hin.
  induction current as [|i rest IH]; simpl; intros parent Hin.
  - destruct Hin.
  - destruct Hin as [<- | Hin]; [lia |].
    specialize (IH _ Hin). lia.
Qed.

(** The part of [get_transform_for_layer] below
    [# Calculate transformation matrix]. *)
Definition calculate_transform (points : list correspondence)
  : option Transform :=
  match points with
  | (svg1, gcode1) :: (svg2, gcode2) :: _ =>
      let svg_dx := fst svg2 - fst svg1 in
      let svg_dy := snd svg2 - snd svg1 in
      let gcode_dx := fst (fst gcode2) - fst (fst gcode1) in
      let gcode_dy := snd (fst gcode2) - snd (fst gcode1) in
      let svg_length := sqrt (svg_dx ^ 2 + svg_dy ^ 2) in
      let gcode_length := sqrt (gcode_dx ^ 2 + gcode_dy ^ 2) in
      if Rlt_dec svg_length (1 / 1000000) then None
      else
        let scale := gcode_length / svg_length in
        let svg_angle := atan2 svg_dy svg_dx in
        let gcode_angle := atan2 gcode_dy gcode_dx in
        let rotation := gcode_angle - svg_angle in
        let transform := new_transform in
        let transform := add_translate transform (- fst svg1) (- snd svg1) in
        let transform := add_scale transform scale scale in
        let transform := add_rotate transform (degrees rotation) in
        let transform :=
          add_translate transform (fst (fst gcode1)) (snd (fst gcode1)) in
        Some transform
  | _ => None
  end.

Definition get_transform_for_layer (self : OrientationManager)
  (layer : element) : outcome (option Transform) * OrientationManager :=
  match transforms self !! layer with
  | Some cached => (Return (Some cached), self)
  | None =>
      match lookup_points (orientation_points self) layer with
      | Raise => (Raise, self)
      | Return None => (Return None, self)
      | Return (Some points) =>
          if (length points <? 2)%nat then (Return None, self)
          else
            match calculate_transform points with
            | None => (Return None, self)
            | Some transform =>
                (Return (Some transform),
                 mkManager (orientation_points self)
                           (<[ layer := transform ]> (transforms self)))
            end
      end
  end.

(** [has_orientation_points]: searches the document again, then looks
    the layer up. *)
Definition has_orientation_points (self : OrientationManager)
  (groups : list (element * list (option correspondence))) (layer : element)
  : bool * OrientationManager :=
  let self := snd (find_orientation_points self groups) in
  (match orientation_points self !! layer with
   | Some _ => true
   | None => false
   end, self).

End Document.

End Orientation.

(** ** Vocabulary of the statements *)

Module Statements.
Import Geometry Gcode Engraver Orientation.

(** The middle of two points, [(a + b) / 2] coordinate by coordinate. *)
Definition midpoint (a b : point) : point :=
  ((fst a + fst b) / 2, (snd a + snd b) / 2).

(** The tangents [fit_biarc] starts from, before normalisation. *)
Definition start_tangent (sp1 : node) : P :=
  P_sub (P_of (sp_2 sp1)) (P_of (sp_1 sp1)).
Definition end_tangent (sp2 : node) : P :=
  P_sub (P_of (sp_1 sp2)) (P_of (sp_0 sp2)).
Definition chord (sp1 sp2 : node) : P :=
  P_sub (P_of (sp_1 sp2)) (P_of (sp_1 sp1)).
Definition cross (a b : P) : R := P_x a * P_y b - P_y a * P_x b.

(** The segment is one on which the fit succeeds: neither tangent is
    shorter than 1e-6 and the unit tangents are not parallel within 1e-6. *)
Definition fit_accepts (sp1 sp2 : node) : Prop :=
  ~ mag (start_tangent sp1) < 1 / 1000000
  /\ ~ mag (end_tangent sp2) < 1 / 1000000
  /\ ~ Rabs (cross (unit (start_tangent sp1)) (unit (end_tangent sp2)))
       < 1 / 1000000.

(** The join point [P0 + V * 0.5]. *)
Definition join_point (sp1 sp2 : node) : point :=
  (fst (sp_1 sp1) + (fst (sp_1 sp2) - fst (sp_1 sp1)) * (1 / 2),
   snd (sp_1 sp1) + (snd (sp_1 sp2) - snd (sp_1 sp1)) * (1 / 2)).

(** A point of the chord line through [a] and [b]. *)
Definition on_chord (a b q : point) : Prop :=
  exists k : R, q = (fst a + (fst b - fst a) * k, snd a + (snd b - snd a) * k).

(** An arc is tangent to the direction [T] at the point [q] when [q] is
    one of its two ends and the radius from its center to [q] is
    perpendicular to [T]. *)
Definition tangent_at (a : primitive) (q : point) (T : P) : Prop :=
  match a with
  | arc start end_ center _ =>
      (q = start \/ q = end_)
      /\ P_dot (P_sub (P_of q) (P_of center)) T = 0
  | line _ _ => False
  end.

(** What the specification asks of a successful fit. *)
Definition tangent_biarc (sp1 sp2 : node) (result : list primitive) : Prop :=
  exists j c1 a1 c2 a2,
    result = [arc (sp_1 sp1) j c1 a1; arc j (sp_1 sp2) c2 a2]
    /\ on_chord (sp_1 sp1) (sp_1 sp2) j
    /\ tangent_at (arc (sp_1 sp1) j c1 a1) (sp_1 sp1)
         (unit (start_tangent sp1))
    /\ tangent_at (arc j (sp_1 sp2) c2 a2) (sp_1 sp2)
         (unit (end_tangent sp2)).

(** An arc whose angle is 0 and whose center is the middle of its ends. *)
Definition flat_arc (a : primitive) : Prop :=
  match a with
  | arc start end_ center angle =>
      angle = 0 /\ center = midpoint start end_
  | line _ _ => False
  end.

Definition line_or_flat_arc (a : primitive) : Prop :=
  match a with
  | line _ _ => True
  | arc _ _ _ _ => flat_arc a
  end.

(** [split_and_approximate] reaches its last branch, the one that splits
    the segment and calls itself. *)
Definition subdivides (max_depth : Z) (sp1 sp2 : node) (depth : Z) : Prop :=
  (depth < max_depth)%Z
  /\ ~ chord_length (sp_1 sp1) (sp_1 sp2) < 1 / 100
  /\ ~ Rmax (control_distance (sp_1 sp1) (sp_2 sp1) (sp_1 sp2))
            (control_distance (sp_1 sp1) (sp_0 sp2) (sp_1 sp2)) < 1 / 10
  /\ (fit_biarc sp1 sp2 = None \/ fit_biarc sp1 sp2 = Some []).

Definition sp_left (sp1 sp2 : node) : node :=
  fst (fst (csp_split sp1 sp2 (1 / 2))).
Definition sp_mid (sp1 sp2 : node) : node :=
  snd (fst (csp_split sp1 sp2 (1 / 2))).
Definition sp_right (sp1 sp2 : node) : node :=
  snd (csp_split sp1 sp2 (1 / 2)).

(** The calls of [split_and_approximate] that one call of
    [biarc_approximation sp1 sp2 max_depth] makes, with their arguments. *)
Inductive invoked (max_depth : Z) (sp1 sp2 : node) : node -> node -> Z -> Prop :=
| invoked_root : invoked max_depth sp1 sp2 sp1 sp2 0
| invoked_left a b d :
    invoked max_depth sp1 sp2 a b d ->
    subdivides max_depth a b d ->
    invoked max_depth sp1 sp2 (sp_left a b) (sp_mid a b) (d + 1)
| invoked_right a b d :
    invoked max_depth sp1 sp2 a b d ->
    subdivides max_depth a b d ->
    invoked max_depth sp1 sp2 (sp_mid a b) (sp_right a b) (d + 1).

(** A straight segment with both handles on their anchors, and a curved
    one whose tangents are perpendicular; the examples used below. *)
Definition straight_1 : node := mkNode (0, 0) (0, 0) (0, 0).
Definition straight_2 : node := mkNode (10, 0) (10, 0) (10, 0).
Definition corner_1 : node := mkNode (0, 0) (0, 0) (1, 0).
Definition corner_2 : node := mkNode (4, 1) (4, 0) (4, 0).

(** A line that is not a clockwise arc, and that is a counterclockwise arc
    if it has a center offset. *)
Definition never_G02 (l : gline) : Prop :=
  word l <> "G02"%string
  /\ (has_field "I" l = true -> word l = "G03"%string).

(** A document with one pixel per millimetre and the height 0, in which
    the output x is the drawing x and the output y the negated drawing y,
    the options of a polyline run with feed 30 and
    of a biarc run, and the path with the one straight subpath from (0,0)
    to (10,0). *)
Definition unit_document : document := mkDocument 1 0.
Definition polyline_options (n : Z) : options := mkOptions "polyline" n 4 30.
Definition biarc_options : options := mkOptions "biarc" 24 4 30.
Definition straight_path : list (list node) := [[straight_1; straight_2]].

(** The lines the specification expects for the straight path, and the
    lines the emitter produces for it. *)
Definition straight_expected : list gline :=
  [mkLine "G0" [("X"%string, 0); ("Y"%string, 0)];
   mkLine "M03" [];
   mkLine "G1" [("X"%string, 10); ("Y"%string, 0); ("F"%string, 30)];
   mkLine "M05" []].
Definition straight_emitted : list gline :=
  [mkLine "G0" [("X"%string, 0); ("Y"%string, 0)];
   mkLine "M03" [];
   mkLine "G1" [("X"%string, 5); ("Y"%string, 0); ("F"%string, 30)];
   mkLine "G1" [("X"%string, 10); ("Y"%string, 0); ("F"%string, 30)];
   mkLine "M05" []].

(** A motion line, and a motion line that spells out both coordinates. *)
Definition is_motion (l : gline) : bool :=
  existsb (String.eqb (word l)) ["G0"; "G1"; "G02"; "G03"]%string.
Definition spells_X_and_Y (l : gline) : Prop :=
  exists x y rest, fields l = ("X"%string, x) :: ("Y"%string, y) :: rest.

(** The distance of two points of the plane. *)
Definition dist (a b : point) : R :=
  sqrt ((fst a - fst b) ^ 2 + (snd a - snd b) ^ 2).

(** The queried layer followed by its ancestor layers, nearest first. *)
Definition layer_chain (is_layer : element -> bool) (layer : element)
  : list element :=
  layer :: List.filter is_layer (ancestors layer).

(** A calibration is attached to the layer. *)
Definition attached (found : gmap element (list (list correspondence)))
  (l : element) : bool :=
  match found !! l with
  | Some _ => true
  | None => false
  end.

(** The calibration that applies to a layer: the first orientation group
    of the nearest layer of its chain that has one attached. *)
Definition applicable_calibration (is_layer : element -> bool)
  (found : gmap element (list (list correspondence))) (layer : element)
  : option (list correspondence) :=
  match List.find (attached found) (layer_chain is_layer layer) with
  | Some l =>
      match found !! l with
      | Some (points :: _) => Some points
      | _ => None
      end
  | None => None
  end.

(** What [find_orientation_points] stores: per layer at least one group,
    and in every group two or three points. *)
Definition well_formed (found : gmap element (list (list correspondence)))
  : Prop :=
  forall l groups,
    found !! l = Some groups ->
    groups <> []
    /\ Forall (fun points => length points = 2%nat \/ length points = 3%nat)
              groups.

(** Every cached transform is the one its layer's calibration gives. *)
Definition cache_consistent (is_layer : element -> bool)
  (self : OrientationManager) : Prop :=
  forall l cached,
    transforms self !! l = Some cached ->
    exists points,
      applicable_calibration is_layer (orientation_points self) l = Some points
      /\ calculate_transform points = Some cached.

(** The x and y of a machine position [[gcode_x, gcode_y, gcode_z]]. *)
Definition machine_xy (g : R * R * R) : point := (fst (fst g), snd (fst g)).

(** The scale, the rotation and the transform the specification names for
    the correspondences (drawing1, machine1) and (drawing2, machine2). *)
Definition solved_scale (d1 : point) (m1 : R * R * R) (d2 : point)
  (m2 : R * R * R) : R :=
  dist (machine_xy m2) (machine_xy m1) / dist d1 d2.
Definition solved_rotation (d1 : point) (m1 : R * R * R) (d2 : point)
  (m2 : R * R * R) : R :=
  atan2 (snd (machine_xy m2) - snd (machine_xy m1))
        (fst (machine_xy m2) - fst (machine_xy m1))
  - atan2 (snd d2 - snd d1) (fst d2 - fst d1).
Definition solved_transform (d1 : point) (m1 : R * R * R) (d2 : point)
  (m2 : R * R * R) : Transform :=
  [Translate (- fst d1) (- snd d1);
   Scale (solved_scale d1 m1 d2 m2) (solved_scale d1 m1 d2 m2);
   Rotate (degrees (solved_rotation d1 m1 d2 m2));
   Translate (fst (machine_xy m1)) (snd (machine_xy m1))].

(** The calibration of the specification's example, and a manager that
    found it on the root. *)
Definition example_calibration : list correspondence :=
  [((0, 0), (0, 0, 0)); ((100, 0), (50, 0, 0))].
Definition example_manager : OrientationManager :=
  mkManager (<[ svg_root := [example_calibration] ]> ∅) ∅.
Definition no_layers (e : element) : bool := false.

(** A document with a layer [[0]] under the root and a layer [[1; 0]]
    inside it, a manager that found the example calibration on the outer
    layer, and one that found a calibration with coinciding drawing
    points there. *)
Definition nested_layers (e : element) : bool :=
  match e with
  | [0%nat] => true
  | [1%nat; 0%nat] => true
  | _ => false
  end.
Definition outer_layer : element := [0%nat].
Definition inner_layer : element := [1%nat; 0%nat].
Definition nested_manager : OrientationManager :=
  mkManager (<[ outer_layer := [example_calibration] ]> ∅) ∅.
Definition coinciding_calibration : list correspondence :=
  [((5, 5), (0, 0, 0)); ((5, 5), (10, 0, 0))].
Definition coinciding_manager : OrientationManager :=
  mkManager (<[ outer_layer := [coinciding_calibration] ]> ∅) ∅.

(** An S-shaped segment from (0,0) to (1,0) whose two tangents both
    point along y, and the path made of the corner segment. *)
Definition s_curve_1 : node := mkNode (0, 0) (0, 0) (0, 1).
Definition s_curve_2 : node := mkNode (1, -1) (1, 0) (1, 0).
Definition corner_path : list (list node) := [[corner_1; corner_2]].

(** The composition the specification and the comment in
    [get_transform_for_layer] name: translate by -drawing1, scale, rotate,
    translate by machine1. *)
Definition spec_composition (d1 : point) (m1 : R * R * R) (d2 : point)
  (m2 : R * R * R) (p : point) : point :=
  translate_by (fst (machine_xy m1)) (snd (machine_xy m1))
    (rotate_by (solved_rotation d1 m1 d2 m2)
       (scale_by (solved_scale d1 m1 d2 m2)
          (translate_by (- fst d1) (- snd d1) p))).

(** A calibration whose first drawing point is not the origin: (10,10)
    for the machine origin and (110,10) for the machine point (50,0); and
    a manager that found it on the root. *)
Definition offset_calibration : list correspondence :=
  [((10, 10), (0, 0, 0)); ((110, 10), (50, 0, 0))].
Definition offset_manager : OrientationManager :=
  mkManager (<[ svg_root := [offset_calibration] ]> ∅) ∅.

(** The length of the control polygon P0 P1 P2 P3 of a segment. *)
Definition control_polygon_length (sp1 sp2 : node) : R :=
  chord_length (sp_1 sp1) (sp_2 sp1)
  + chord_length (sp_2 sp1) (sp_0 sp2)
  + chord_length (sp_0 sp2) (sp_1 sp2).

(** An affine map of the plane, and a node moved by a map. *)
Definition affine (m11 m12 m21 m22 tx ty : R) (p : point) : point :=
  (m11 * fst p + m12 * snd p + tx, m21 * fst p + m22 * snd p + ty).
Definition map_node (f : point -> point) (sp : node) : node :=
  mkNode (f (sp_0 sp)) (f (sp_1 sp)) (f (sp_2 sp)).

(** The two ends of a primitive, and a list of primitives that leads from
    one point to another without a gap. *)
Definition primitive_start (a : primitive) : point :=
  match a with
  | line start _ => start
  | arc start _ _ _ => start
  end.
Definition primitive_end (a : primitive) : point :=
  match a with
  | line _ end_ => end_
  | arc _ end_ _ _ => end_
  end.
Fixpoint chained (from : point) (l : list primitive) (to : point) : Prop :=
  match l with
  | [] => from = to
  | a :: rest =>
      primitive_start a = from /\ chained (primitive_end a) rest to
  end.

(** The loop of [optimize] by recursion on the lines still to come:
    [started] tells whether a line has been kept, [last_command] is the
    last line that was not a skipped leading blank. *)
Fixpoint optimize_from (started : bool) (last_command : option string)
  (lines : list string) : list string :=
  match lines with
  | [] => []
  | ln :: rest =>
      if negb started && is_blank ln
      then optimize_from started last_command rest
      else if is_comment ln || is_mode ln then
        if differs ln last_command
        then ln :: optimize_from true (Some ln) rest
        else optimize_from started (Some ln) rest
      else ln :: optimize_from true (Some ln) rest
  end.

(** A line that is neither blank, nor a comment, nor a mode word. *)
Definition is_command (ln : string) : bool :=
  negb (is_blank ln) && negb (is_comment ln) && negb (is_mode ln).

(** No comment and no mode word follows an equal line. *)
Fixpoint no_repeat (last_command : option string) (lines : list string)
  : Prop :=
  match lines with
  | [] => True
  | ln :: rest =>
      (is_comment ln || is_mode ln = true ->
       differs ln last_command = true)
      /\ no_repeat (Some ln) rest
  end.

(** The orientation groups of a document that parse to two or three
    points and lie in a layer, in document order. *)
Definition accepted_for (is_layer : element -> bool) (l : element)
  (groups : list (element * list (option correspondence)))
  : list (list correspondence) :=
  omap (fun group =>
          if decide (_get_layer is_layer (fst group) = l)
          then _parse_orientation_group (snd group)
          else None) groups.

(** The state of the tool after a list of lines, starting from [on]:
    M03 switches it on and M05 off, a rapid move G0 needs the tool off and
    a cutting move G1, G02 or G03 needs it on; [None] if a line is out of
    place. *)
Fixpoint tool_state (on : bool) (lines : list gline) : option bool :=
  match lines with
  | [] => Some on
  | l :: rest =>
      if String.eqb (word l) "M03"
      then if on then None else tool_state true rest
      else if String.eqb (word l) "M05"
      then if on then tool_state false rest else None
      else if String.eqb (word l) "G0"
      then if on then None else tool_state false rest
      else if is_motion l
      then if on then tool_state true rest else None
      else None
  end.

(** The number of lines with a given command word. *)
Definition count_word (w : string) (lines : list gline) : nat :=
  length (List.filter (fun l => String.eqb (word l) w) lines).

(** The subpaths that are emitted: those with at least two nodes. *)
Definition emitted_subpaths (csp : list (list node)) : list (list node) :=
  List.filter (fun subpath => (2 <=? length subpath)%nat) csp.

(** The target of a line: its X and Y, if it begins with them. *)
Definition target (l : gline) : option (R * R) :=
  match fields l with
  | (a, x) :: (b, y) :: _ =>
      if String.eqb a "X" && String.eqb b "Y" then Some (x, y) else None
  | _ => None
  end.

(** A line that cuts: a G1 or a G03. *)
Definition cuts (l : gline) : Prop :=
  word l = "G1"%string \/ word l = "G03"%string.

End Statements.

(** * Properties *)

Import Geometry Gcode Engraver Orientation Statements.

(** ** The Bezier segment *)

(** C5. Endpoint interpolation: the cubic through the four control points
    of a segment takes the value P0 at t = 0 and P3 at t = 1; its
    coefficients satisfy d = P0 and a + b + c + d = P3. *)
Theorem csp_at_t_endpoints (sp1 sp2 : node) :
  csp_at_t sp1 sp2 0 = sp_1 sp1
  /\ csp_at_t sp1 sp2 1 = sp_1 sp2
  /\ (let k := csp_parameterize sp1 sp2 in
      (c_dx k, c_dy k) = sp_1 sp1
      /\ (c_ax k + c_bx k + c_cx k + c_dx k,
          c_ay k + c_by k + c_cy k + c_dy k) = sp_1 sp2).
Proof.
  destruct sp1 as [h1 [x0 y0] [x1 y1]], sp2 as [[x2 y2] [x3 y3] h2].
  unfold csp_at_t, csp_parameterize, bezier_parameterize; cbn.
  repeat split; f_equal; ring.
Qed.

(** De Casteljau subdivision reproduces the curve, for every real [t]
    and [u]. *)
Lemma csp_split_reparameterize (sp1 sp2 : node) (t u : R) :
  csp_at_t (fst (fst (csp_split sp1 sp2 t))) (snd (fst (csp_split sp1 sp2 t))) u
    = csp_at_t sp1 sp2 (t * u)
  /\ csp_at_t (snd (fst (csp_split sp1 sp2 t))) (snd (csp_split sp1 sp2 t)) u
    = csp_at_t sp1 sp2 (t + (1 - t) * u).
Proof.
  destruct sp1 as [h1 [x0 y0] [x1 y1]], sp2 as [[x2 y2] [x3 y3] h2].
  unfold csp_at_t, csp_parameterize, bezier_parameterize, csp_split, lerp; cbn.
  split; f_equal; ring.
Qed.

(** C6. Subdivision fidelity: for a split parameter t in [0,1] and every u
    in [0,1], the left sub-segment at u is the segment at t*u and the
    right sub-segment at u is the segment at t + (1-t)*u. *)
Theorem csp_split_fidelity (sp1 sp2 : node) (t u : R) :
  0 <= t <= 1 -> 0 <= u <= 1 ->
  let '(left_, mid_, right_) := csp_split sp1 sp2 t in
  csp_at_t left_ mid_ u = csp_at_t sp1 sp2 (t * u)
  /\ csp_at_t mid_ right_ u = csp_at_t sp1 sp2 (t + (1 - t) * u).
Proof.
  intros _ _.
  pose proof (csp_split_reparameterize sp1 sp2 t u) as H.
  destruct (csp_split sp1 sp2 t) as [[left_ mid_] right_]. exact H.
Qed.

Lemma csp_split_fidelity_witness :
  0 <= 1 / 2 <= 1 /\ 0 <= 1 / 4 <= 1
  /\ (let '(left_, mid_, right_) := csp_split corner_1 corner_2 (1 / 2) in
      csp_at_t left_ mid_ (1 / 4) = csp_at_t corner_1 corner_2 (1 / 2 * (1 / 4))
      /\ csp_at_t mid_ right_ (1 / 4)
         = csp_at_t corner_1 corner_2 (1 / 2 + (1 - 1 / 2) * (1 / 4))).
Proof.
  split; [lra | split; [lra |]].
  apply (csp_split_fidelity corner_1 corner_2 (1 / 2) (1 / 4)); lra.
Defined.

(** ** The biarc fit *)

(** [fit_biarc] either rejects the segment or returns the two arcs through
    the middle of the chord. *)
Lemma fit_biarc_cases (sp1 sp2 : node) :
  (fit_accepts sp1 sp2
   /\ fit_biarc sp1 sp2
      = Some [arc (sp_1 sp1) (join_point sp1 sp2)
                  (midpoint (sp_1 sp1) (join_point sp1 sp2)) 0;
              arc (join_point sp1 sp2) (sp_1 sp2)
                  (midpoint (join_point sp1 sp2) (sp_1 sp2)) 0])
  \/ (~ fit_accepts sp1 sp2 /\ fit_biarc sp1 sp2 = None).
Proof.
  unfold fit_biarc, fit_accepts, start_tangent, end_tangent, cross.
  destruct (Rlt_dec (mag (P_sub (P_of (sp_2 sp1)) (P_of (sp_1 sp1)))) _)
    as [H0 | H0]; [right; split; [tauto | reflexivity] |].
  destruct (Rlt_dec (mag (P_sub (P_of (sp_1 sp2)) (P_of (sp_0 sp2)))) _)
    as [H3 | H3]; [right; split; [tauto | reflexivity] |].
  destruct (Rlt_dec (Rabs _) _) as [Hc | Hc];
    [right; split; [tauto | reflexivity] |].
  left. split; [tauto |].
  destruct sp1 as [h1 [x0 y0] p1], sp2 as [p2 [x3 y3] h2]; reflexivity.
Qed.

Lemma fit_biarc_accepts (sp1 sp2 : node) :
  fit_accepts sp1 sp2 <-> fit_biarc sp1 sp2 <> None.
Proof.
  destruct (fit_biarc_cases sp1 sp2) as [[Ha ->] | [Hn ->]];
    split; intros H; try congruence; tauto.
Qed.

(** The radius of either arc at its outer end is a quarter of the chord. *)
Lemma first_radius_dot (sp1 sp2 : node) (T : P) :
  P_dot (P_sub (P_of (sp_1 sp1))
               (P_of (midpoint (sp_1 sp1) (join_point sp1 sp2)))) T
  = - (P_dot (chord sp1 sp2) T / 4).
Proof.
  destruct sp1 as [h1 [x0 y0] p1], sp2 as [p2 [x3 y3] h2], T as [tx ty].
  unfold P_dot, chord; cbn. field.
Qed.

Lemma second_radius_dot (sp1 sp2 : node) (T : P) :
  P_dot (P_sub (P_of (sp_1 sp2))
               (P_of (midpoint (join_point sp1 sp2) (sp_1 sp2)))) T
  = P_dot (chord sp1 sp2) T / 4.
Proof.
  destruct sp1 as [h1 [x0 y0] p1], sp2 as [p2 [x3 y3] h2], T as [tx ty].
  unfold P_dot, chord; cbn. field.
Qed.

(** C1, as the code has it. On every segment the fit accepts (both
    tangents of magnitude at least 1e-6, unit tangents not parallel) the
    fit returns exactly two arcs that share the middle of the chord as
    their join point, the first from P0 and the second to P3, each with
    the middle of its own ends as center and the angle 0; the first arc is
    tangent to T0 at P0 exactly when T0 is perpendicular to the chord, and
    the second to T3 at P3 exactly when T3 is perpendicular to the chord. *)
Theorem fit_biarc_midpoint_join (sp1 sp2 : node) :
  fit_accepts sp1 sp2 ->
  let j := join_point sp1 sp2 in
  let first := arc (sp_1 sp1) j (midpoint (sp_1 sp1) j) 0 in
  let second := arc j (sp_1 sp2) (midpoint j (sp_1 sp2)) 0 in
  fit_biarc sp1 sp2 = Some [first; second]
  /\ on_chord (sp_1 sp1) (sp_1 sp2) j
  /\ (tangent_at first (sp_1 sp1) (unit (start_tangent sp1))
      <-> P_dot (chord sp1 sp2) (unit (start_tangent sp1)) = 0)
  /\ (tangent_at second (sp_1 sp2) (unit (end_tangent sp2))
      <-> P_dot (chord sp1 sp2) (unit (end_tangent sp2)) = 0).
Proof.
  intros Hacc; cbv zeta.
  destruct (fit_biarc_cases sp1 sp2) as [[_ Hfit] | [Hn _]]; [| tauto].
  split; [exact Hfit |].
  split; [exists (1 / 2); reflexivity |].
  unfold tangent_at.
  rewrite first_radius_dot, second_radius_dot.
  split; split; intros H.
  - destruct H as [_ H]. lra.
  - split; [now left | lra].
  - destruct H as [_ H]. lra.
  - split; [now right | lra].
Qed.

(** The tangents of the corner example are the unit vectors along x and
    against y. *)
Lemma mag_unit_length (a : P) : P_x a ^ 2 + P_y a ^ 2 = 1 -> mag a = 1.
Proof. intros H. unfold mag. rewrite H. apply sqrt_1. Qed.

Lemma unit_unit_length (a : P) :
  P_x a ^ 2 + P_y a ^ 2 = 1 -> unit a = mkP (P_x a) (P_y a).
Proof.
  intros H. unfold unit. rewrite (mag_unit_length a H).
  destruct (Rlt_dec 0 1) as [_ | Hn]; [| lra].
  unfold P_truediv. f_equal; field.
Qed.

Lemma corner_start_tangent : unit (start_tangent corner_1) = mkP (1 - 0) (0 - 0).
Proof. apply unit_unit_length. cbn. ring. Qed.

Lemma corner_end_tangent : unit (end_tangent corner_2) = mkP (4 - 4) (0 - 1).
Proof. apply unit_unit_length. cbn. ring. Qed.

Lemma corner_fit_accepts : fit_accepts corner_1 corner_2.
Proof.
  unfold fit_accepts.
  rewrite corner_start_tangent, corner_end_tangent.
  rewrite !mag_unit_length by (cbn; ring).
  unfold cross; cbn.
  replace ((1 - 0) * (0 - 1) - (0 - 0) * (4 - 4)) with (- (1)) by ring.
  rewrite Rabs_Ropp, Rabs_R1. repeat split; lra.
Qed.

Lemma fit_biarc_midpoint_join_witness :
  fit_accepts corner_1 corner_2
  /\ fit_biarc corner_1 corner_2
     = Some [arc (sp_1 corner_1) (join_point corner_1 corner_2)
               (midpoint (sp_1 corner_1) (join_point corner_1 corner_2)) 0;
             arc (join_point corner_1 corner_2) (sp_1 corner_2)
               (midpoint (join_point corner_1 corner_2) (sp_1 corner_2)) 0].
Proof.
  split; [exact corner_fit_accepts |].
  exact (proj1 (fit_biarc_midpoint_join corner_1 corner_2 corner_fit_accepts)).
Defined.

(** C1, as the specification words it, fails on the corner example: the fit
    succeeds there, and its first arc has the center (1,0), so that the
    start tangent (1,0) lies along the radius at P0 = (0,0) instead of
    across it. *)
Lemma tangent_biarc_counterexample :
  fit_accepts corner_1 corner_2
  /\ exists result,
       fit_biarc corner_1 corner_2 = Some result
       /\ ~ tangent_biarc corner_1 corner_2 result.
Proof.
  split; [exact corner_fit_accepts |].
  destruct (fit_biarc_cases corner_1 corner_2) as [[_ Hfit] | [Hn _]];
    [| destruct (Hn corner_fit_accepts)].
  eexists; split; [exact Hfit |].
  intros (j & c1 & a1 & c2 & a2 & Heq & _ & [_ Htan] & _).
  injection Heq as Hj Hc1 _ _ _ _.
  subst j c1. rewrite first_radius_dot, corner_start_tangent in Htan.
  unfold P_dot, chord in Htan; cbn in Htan. lra.
Qed.

(** ** The biarc approximation *)

(** The body of [split_and_approximate]. *)
Lemma split_and_approximate_body (max_depth : Z) (sp1 sp2 : node) (depth : Z) :
  split_and_approximate max_depth sp1 sp2 depth
  = if Z_ge_dec depth max_depth then [line (sp_1 sp1) (sp_1 sp2)]
    else if Rlt_dec (chord_length (sp_1 sp1) (sp_1 sp2)) (1 / 100)
    then [line (sp_1 sp1) (sp_1 sp2)]
    else if Rlt_dec
              (Rmax (control_distance (sp_1 sp1) (sp_2 sp1) (sp_1 sp2))
                    (control_distance (sp_1 sp1) (sp_0 sp2) (sp_1 sp2)))
              (1 / 10)
    then [line (sp_1 sp1) (sp_1 sp2)]
    else match fit_biarc sp1 sp2 with
         | Some (a :: result) => a :: result
         | _ =>
             split_and_approximate max_depth
               (sp_left sp1 sp2) (sp_mid sp1 sp2) (depth + 1)
             ++ split_and_approximate max_depth
               (sp_mid sp1 sp2) (sp_right sp1 sp2) (depth + 1)
         end.
Proof.
  rewrite split_and_approximate_equation_1.
  destruct (Z_ge_dec depth max_depth) as [Hge | Hlt]; cbn; [reflexivity |].
  destruct (Rlt_dec _ _); [reflexivity |].
  destruct (Rlt_dec _ _); [reflexivity |].
  destruct (fit_biarc sp1 sp2) as [[| a result] |]; reflexivity.
Qed.

(** At or beyond the maximal depth the result is the one line. *)
Lemma split_and_approximate_exhausted (max_depth : Z) (sp1 sp2 : node) (depth : Z) :
  (depth >= max_depth)%Z ->
  split_and_approximate max_depth sp1 sp2 depth
  = [line (sp_1 sp1) (sp_1 sp2)].
Proof.
  intros H. rewrite split_and_approximate_body.
  destruct (Z_ge_dec depth max_depth); [reflexivity | contradiction].
Qed.

(** A call recurses exactly when [subdivides] holds, and then on the two
    halves at the next depth. *)
Lemma split_and_approximate_subdivides (max_depth : Z) (sp1 sp2 : node) (depth : Z) :
  subdivides max_depth sp1 sp2 depth ->
  split_and_approximate max_depth sp1 sp2 depth
  = split_and_approximate max_depth
      (sp_left sp1 sp2) (sp_mid sp1 sp2) (depth + 1)
    ++ split_and_approximate max_depth
      (sp_mid sp1 sp2) (sp_right sp1 sp2) (depth + 1).
Proof.
  intros (Hd & Hc & Hs & Hf). rewrite split_and_approximate_body.
  destruct (Z_ge_dec depth max_depth); [lia |].
  destruct (Rlt_dec _ _); [contradiction |].
  destruct (Rlt_dec _ _); [contradiction |].
  destruct Hf as [-> | ->]; reflexivity.
Qed.

Lemma split_and_approximate_leaf (max_depth : Z) (sp1 sp2 : node) (depth : Z) :
  ~ subdivides max_depth sp1 sp2 depth ->
  split_and_approximate max_depth sp1 sp2 depth
  = [line (sp_1 sp1) (sp_1 sp2)]
  \/ fit_biarc sp1 sp2 = Some (split_and_approximate max_depth sp1 sp2 depth).
Proof.
  intros Hn. rewrite split_and_approximate_body. unfold subdivides in Hn.
  destruct (Z_ge_dec depth max_depth); [now left |].
  destruct (Rlt_dec _ _); [now left |].
  destruct (Rlt_dec _ _); [now left |].
  destruct (fit_biarc sp1 sp2) as [[| a result] |]; [| now right |];
    exfalso; apply Hn; repeat split; auto; lia.
Qed.

Lemma subdivides_dec (max_depth : Z) (sp1 sp2 : node) (depth : Z) :
  subdivides max_depth sp1 sp2 depth \/ ~ subdivides max_depth sp1 sp2 depth.
Proof.
  unfold subdivides.
  destruct (Z_lt_dec depth max_depth); [| right; tauto].
  destruct (Rlt_dec (chord_length (sp_1 sp1) (sp_1 sp2)) (1 / 100));
    [right; tauto |].
  destruct (Rlt_dec
              (Rmax (control_distance (sp_1 sp1) (sp_2 sp1) (sp_1 sp2))
                    (control_distance (sp_1 sp1) (sp_0 sp2) (sp_1 sp2)))
              (1 / 10)); [right; tauto |].
  destruct (fit_biarc sp1 sp2) as [[| a result] |].
  - left; tauto.
  - right. intros (_ & _ & _ & [H | H]); discriminate H.
  - left; tauto.
Qed.

(** Every call made has a depth between 0 and the maximal depth. *)
Lemma invoked_depth (max_depth : Z) (sp1 sp2 a b : node) (d : Z) :
  (0 <= max_depth)%Z ->
  invoked max_depth sp1 sp2 a b d -> (0 <= d <= max_depth)%Z.
Proof.
  intros Hmax Hinv.
  induction Hinv as [| a b d _ IH Hsub | a b d _ IH Hsub].
  - lia.
  - destruct Hsub as [Hlt _]. lia.
  - destruct Hsub as [Hlt _]. lia.
Qed.

(** The result has at most two primitives per leaf of a binary tree of
    height [max_depth - depth]. *)
Lemma split_and_approximate_length (n : nat) :
  forall (max_depth : Z) (sp1 sp2 : node) (depth : Z),
    Z.to_nat (max_depth - depth) = n ->
    (length (split_and_approximate max_depth sp1 sp2 depth) <= 2 * 2 ^ n)%nat.
Proof.
  induction n as [| n IH]; intros max_depth sp1 sp2 depth Hn.
  - rewrite split_and_approximate_exhausted by lia. simpl. lia.
  - destruct (subdivides_dec max_depth sp1 sp2 depth) as [Hs | Hs].
    + rewrite (split_and_approximate_subdivides _ _ _ _ Hs).
      rewrite length_app.
      pose proof (IH max_depth (sp_left sp1 sp2) (sp_mid sp1 sp2)
                    (depth + 1)%Z ltac:(lia)).
      pose proof (IH max_depth (sp_mid sp1 sp2) (sp_right sp1 sp2)
                    (depth + 1)%Z ltac:(lia)).
      rewrite Nat.pow_succ_r'. lia.
    + assert (1 <= 2 ^ S n)%nat by (apply Nat.neq_0_lt_0, Nat.pow_nonzero; lia).
      destruct (split_and_approximate_leaf _ _ _ _ Hs) as [-> | Hfit].
      * simpl length. lia.
      * destruct (fit_biarc_cases sp1 sp2) as [[_ Hc] | [_ Hc]];
          rewrite Hc in Hfit; [| discriminate].
        injection Hfit as <-. simpl length. lia.
Qed.

(** C4. For every segment and every max_depth >= 0 the approximation is
    defined by recursion on max_depth - depth and returns at most
    2 * 2^max_depth primitives; every call of the recursion has a depth
    between 0 and max_depth; a call that subdivides continues on the two
    halves at its depth plus one; a call at a depth >= max_depth does not
    subdivide and returns the single line from the start to the end of its
    segment; with max_depth = 0 the result is exactly one line. *)
Theorem biarc_approximation_depth_bound (max_depth : Z) (sp1 sp2 : node) :
  (0 <= max_depth)%Z ->
  (length (biarc_approximation sp1 sp2 max_depth)
   <= 2 * 2 ^ Z.to_nat max_depth)%nat
  /\ (forall a b d,
        invoked max_depth sp1 sp2 a b d -> (0 <= d <= max_depth)%Z)
  /\ (forall a b d,
        subdivides max_depth a b d ->
        split_and_approximate max_depth a b d
        = split_and_approximate max_depth (sp_left a b) (sp_mid a b) (d + 1)
          ++ split_and_approximate max_depth
               (sp_mid a b) (sp_right a b) (d + 1))
  /\ (forall a b d,
        (d >= max_depth)%Z ->
        ~ subdivides max_depth a b d
        /\ split_and_approximate max_depth a b d
           = [line (sp_1 a) (sp_1 b)])
  /\ (max_depth = 0%Z ->
      biarc_approximation sp1 sp2 max_depth
      = [line (sp_1 sp1) (sp_1 sp2)]).
Proof.
  intros Hmax.
  split; [| split; [| split; [| split]]].
  - apply split_and_approximate_length. f_equal. lia.
  - intros a b d. now apply invoked_depth.
  - intros a b d. apply split_and_approximate_subdivides.
  - intros a b d Hd. split.
    + intros (Hlt & _). lia.
    + now apply split_and_approximate_exhausted.
  - intros ->. now apply split_and_approximate_exhausted.
Qed.

Lemma biarc_approximation_depth_bound_witness :
  (0 <= 0)%Z
  /\ biarc_approximation corner_1 corner_2 0
     = [line (sp_1 corner_1) (sp_1 corner_2)].
Proof.
  split; [lia |].
  exact (proj2 (proj2 (proj2 (proj2
    (biarc_approximation_depth_bound 0 corner_1 corner_2 (Z.le_refl 0)))))
    eq_refl).
Defined.

(** A successful fit returns flat arcs only. *)
Lemma fit_biarc_flat (sp1 sp2 : node) (result : list primitive) :
  fit_biarc sp1 sp2 = Some result -> Forall flat_arc result.
Proof.
  intros Hfit.
  destruct (fit_biarc_cases sp1 sp2) as [[_ Hc] | [_ Hc]];
    rewrite Hc in Hfit; [| discriminate].
  injection Hfit as <-.
  repeat constructor.
Qed.

Lemma flat_arc_line_or_flat_arc (a : primitive) :
  flat_arc a -> line_or_flat_arc a.
Proof. destruct a; simpl; tauto. Qed.

(** The approximation consists of lines and flat arcs. *)
Lemma split_and_approximate_flat (n : nat) :
  forall (max_depth : Z) (sp1 sp2 : node) (depth : Z),
    Z.to_nat (max_depth - depth) = n ->
    Forall line_or_flat_arc (split_and_approximate max_depth sp1 sp2 depth).
Proof.
  induction n as [| n IH]; intros max_depth sp1 sp2 depth Hn.
  - rewrite split_and_approximate_exhausted by lia.
    repeat constructor.
  - destruct (subdivides_dec max_depth sp1 sp2 depth) as [Hs | Hs].
    + rewrite (split_and_approximate_subdivides _ _ _ _ Hs).
      apply Forall_app; split; apply IH; lia.
    + destruct (split_and_approximate_leaf _ _ _ _ Hs) as [-> | Hfit].
      * repeat constructor.
      * eapply Forall_impl; [exact (fit_biarc_flat _ _ _ Hfit) |].
        exact flat_arc_line_or_flat_arc.
Qed.

Lemma biarc_approximation_flat (sp1 sp2 : node) (max_depth : Z) :
  Forall line_or_flat_arc (biarc_approximation sp1 sp2 max_depth).
Proof. now apply (split_and_approximate_flat (Z.to_nat (max_depth - 0))). Qed.

(** ** The emitter *)

Lemma arc_to_gcode_flat (svg : document) (opts : options) (a : primitive) :
  line_or_flat_arc a -> never_G02 (arc_to_gcode svg opts a).
Proof.
  destruct a as [s e | s e c angle]; simpl; intros H.
  - split; [discriminate | intros Hf; discriminate Hf].
  - destruct H as [-> _].
    destruct (Rlt_dec 0 0) as [Hlt | _]; [lra |].
    split; [discriminate | reflexivity].
Qed.

Lemma G1_never_G02 (svg : document) (opts : options) (p : point) :
  never_G02 (G1 svg opts p).
Proof. split; [discriminate | intros Hf; discriminate Hf]. Qed.

Lemma segment_to_gcode_never_G02 (svg : document) (opts : options)
  (sp1 sp2 : node) :
  Forall never_G02 (segment_to_gcode svg opts sp1 sp2).
Proof.
  unfold segment_to_gcode.
  destruct (String.eqb (curve_mode opts) "biarc").
  - apply List.Forall_forall. intros l Hin.
    apply in_map_iff in Hin. destruct Hin as (a & <- & Ha).
    apply arc_to_gcode_flat.
    pose proof (biarc_approximation_flat sp1 sp2 (biarc_max_split_depth opts)) as Hf.
    rewrite List.Forall_forall in Hf. now apply Hf.
  - apply List.Forall_forall. intros l Hin.
    apply in_map_iff in Hin. destruct Hin as (s & <- & _).
    apply G1_never_G02.
Qed.

Lemma Forall_concat_map {A B : Type} (Q : B -> Prop) (f : A -> list B)
  (l : list A) :
  (forall a, In a l -> Forall Q (f a)) -> Forall Q (concat (map f l)).
Proof.
  induction l as [| a l IH]; simpl; intros H; [constructor |].
  apply Forall_app; split; [apply H; now left |].
  apply IH. intros b Hb. apply H. now right.
Qed.

Lemma subpath_to_gcode_never_G02 (svg : document) (opts : options)
  (subpath : list node) :
  Forall never_G02 (subpath_to_gcode svg opts subpath).
Proof.
  destruct subpath as [| first [| second rest]]; try constructor.
  - split; [discriminate | intros Hf; discriminate Hf].
  - constructor; [split; [discriminate | intros Hf; discriminate Hf] |].
    apply Forall_app; split.
    + apply Forall_concat_map. intros s _. apply segment_to_gcode_never_G02.
    + repeat constructor; [discriminate | intros Hf; discriminate Hf].
Qed.

(** C10. Every primitive a successful fit returns is an arc with the
    angle 0 whose center is the middle of its own start and end; the test
    angle < 0 therefore fails for every primitive of an approximation, and
    no line the emitter produces is a G02: every arc command is a G03. *)
Theorem biarc_mode_never_clockwise :
  (forall sp1 sp2 result,
      fit_biarc sp1 sp2 = Some result -> Forall flat_arc result)
  /\ (forall sp1 sp2 max_depth a,
        In a (biarc_approximation sp1 sp2 max_depth) ->
        match a with
        | arc _ _ _ angle => ~ angle < 0
        | line _ _ => True
        end)
  /\ (forall svg opts csp,
        curve_mode opts = "biarc"%string ->
        Forall never_G02 (_path_to_gcode svg opts csp)).
Proof.
  split; [exact fit_biarc_flat | split].
  - intros sp1 sp2 max_depth a Hin.
    pose proof (biarc_approximation_flat sp1 sp2 max_depth) as Hf.
    rewrite List.Forall_forall in Hf. specialize (Hf a Hin).
    destruct a as [s e | s e c angle]; [exact I |].
    destruct Hf as [-> _]. lra.
  - intros svg opts csp _. unfold _path_to_gcode.
    apply Forall_concat_map. intros subpath _.
    apply subpath_to_gcode_never_G02.
Qed.

(** In polyline mode a segment becomes one G1 per sample. *)
Lemma segment_to_gcode_polyline (svg : document) (opts : options)
  (sp1 sp2 : node) :
  String.eqb (curve_mode opts) "biarc" = false ->
  segment_to_gcode svg opts sp1 sp2
  = map (fun s =>
           G1 svg opts (csp_at_t sp1 sp2 (IZR s / IZR (poly_segments opts))))
        (range 1 (poly_segments opts + 1)).
Proof. intros H. unfold segment_to_gcode. rewrite H. reflexivity. Qed.

Lemma range_length (a b : Z) : length (range a b) = Z.to_nat (b - a).
Proof. unfold range. now rewrite length_map, length_seq. Qed.




(** The straight segment from (0,0) to (10,0), both handles on their
    anchors, is the cubic 30 t^2 - 20 t^3 along x. *)
Lemma straight_at_t (t : R) :
  csp_at_t straight_1 straight_2 t = (30 * t ^ 2 - 20 * t ^ 3, 0).
Proof.
  unfold csp_at_t, csp_parameterize, bezier_parameterize; cbn -[pow].
  f_equal; ring.
Qed.

(** The sample count is never below 2: for a configured count of 2 or
    less the straight path is emitted with two linear moves. *)
Lemma straight_path_gcode (n : Z) :
  (n <= 2)%Z ->
  _path_to_gcode unit_document (polyline_options n) straight_path
  = straight_emitted.
Proof.
  intros Hn.
  unfold _path_to_gcode, straight_path, subpath_to_gcode.
  cbn [List.map List.concat segments fst snd List.app].
  rewrite segment_to_gcode_polyline by reflexivity.
  assert (Hpoly : poly_segments (polyline_options n) = 2%Z)
    by (unfold poly_segments; cbn; lia).
  rewrite Hpoly.
  change (range 1 (2 + 1)) with [1%Z; 2%Z].
  cbn [List.map List.app List.concat]. rewrite !straight_at_t.
  unfold G1, out_x, out_y, straight_emitted;
    cbn [fst snd px_per_mm page_height_px unit_document feed
         polyline_options sp_1 straight_1].
  repeat f_equal; lra.
Qed.

(** C8, as the code has it. The straight subpath from (0,0) to (10,0), in
    polyline mode with feed 30 and the sample count n = 1, is emitted with
    the sample count raised to 2: a rapid move to (0,0), tool-on, a linear
    move to (5,0) at feed 30, a linear move to (10,0) at feed 30,
    tool-off. *)
Theorem straight_path_five_lines :
  poly_segments (polyline_options 1) = 2%Z
  /\ _path_to_gcode unit_document (polyline_options 1) straight_path
     = [mkLine "G0" [("X"%string, 0); ("Y"%string, 0)];
        mkLine "M03" [];
        mkLine "G1" [("X"%string, 5); ("Y"%string, 0); ("F"%string, 30)];
        mkLine "G1" [("X"%string, 10); ("Y"%string, 0); ("F"%string, 30)];
        mkLine "M05" []].
Proof.
  split; [reflexivity |].
  apply straight_path_gcode. lia.
Qed.

(** C8, as the specification words it, fails: with n = 1 the emitter does
    not produce the four lines with a single linear move. *)
Lemma straight_path_counterexample :
  _path_to_gcode unit_document (polyline_options 1) straight_path
  <> straight_expected.
Proof.
  rewrite straight_path_gcode by lia.
  unfold straight_emitted, straight_expected. intros H.
  apply (f_equal (@length gline)) in H. discriminate H.
Qed.

Lemma straight_path_length (svg : document) (n : Z) :
  (n <= 2)%Z ->
  length (_path_to_gcode svg (polyline_options n) straight_path) = 5%nat.
Proof.
  intros Hn.
  unfold _path_to_gcode, straight_path, subpath_to_gcode.
  cbn [List.map List.concat segments fst snd List.app].
  rewrite segment_to_gcode_polyline by reflexivity.
  assert (Hpoly : poly_segments (polyline_options n) = 2%Z)
    by (unfold poly_segments; cbn; lia).
  rewrite Hpoly. reflexivity.
Qed.

(** *** Coordinate deduplication *)

(** [GCodeGenerator.move_to] writes a coordinate only if it moved by more
    than 1e-6 from the last one written, and remembers what it wrote. *)
Lemma move_to_fields (self : GCodeGenerator) (x y : R) (rapid : bool) :
  fields (fst (move_to self x y rapid))
  = (if changed (current_x self) x then [("X"%string, x)] else [])
    ++ (if changed (current_y self) y then [("Y"%string, y)] else [])
  /\ snd (move_to self x y rapid)
     = mkGen (if changed (current_x self) x then Some x else current_x self)
             (if changed (current_y self) y then Some y else current_y self).
Proof.
  unfold move_to. destruct self as [cx cy]; cbn [current_x current_y].
  destruct (changed cx x); cbn [current_x current_y];
    destruct (changed cy y); split; reflexivity.
Qed.

Lemma changed_Some (c v : R) :
  changed (Some c) v = true <-> Rabs (v - c) > 1 / 1000000.
Proof.
  unfold changed. destruct (Rgt_dec (Rabs (v - c)) (1 / 1000000)); split;
    intros H; try reflexivity; try assumption; try discriminate; contradiction.
Qed.

Lemma changed_same (c : R) : changed (Some c) c = false.
Proof.
  destruct (changed (Some c) c) eqn:E; [| reflexivity].
  apply changed_Some in E.
  replace (c - c) with 0 in E by ring. rewrite Rabs_R0 in E. lra.
Qed.

Lemma changed_5_10 : changed (Some 5) 10 = true.
Proof.
  apply changed_Some. replace (10 - 5) with 5 by ring.
  rewrite Rabs_pos_eq; lra.
Qed.

(** The generator run on the two linear moves of the straight path leaves
    the second Y out. *)
Lemma line_to_omits_unchanged_Y :
  line_to new_generator 5 0 (Some 30)
  = (mkLine "G1" [("X"%string, 5); ("Y"%string, 0); ("F"%string, 30)],
     mkGen (Some 5) (Some 0))
  /\ line_to (mkGen (Some 5) (Some 0)) 10 0 (Some 30)
     = (mkLine "G1" [("X"%string, 10); ("F"%string, 30)],
        mkGen (Some 10) (Some 0)).
Proof.
  split.
  - reflexivity.
  - unfold line_to, move_to; cbn [current_x current_y].
    rewrite changed_5_10; cbn [current_x current_y].
    rewrite changed_same. reflexivity.
Qed.

(** Every motion line of [_path_to_gcode] spells out X and Y. *)
Lemma G1_spells (svg : document) (opts : options) (p : point) :
  spells_X_and_Y (G1 svg opts p).
Proof. unfold spells_X_and_Y, G1; cbn. eauto. Qed.

Lemma arc_to_gcode_spells (svg : document) (opts : options) (a : primitive) :
  spells_X_and_Y (arc_to_gcode svg opts a).
Proof.
  destruct a as [s e | s e c angle]; [apply G1_spells |].
  unfold spells_X_and_Y, arc_to_gcode; cbn. eauto.
Qed.

Lemma segment_to_gcode_spells (svg : document) (opts : options)
  (sp1 sp2 : node) :
  Forall spells_X_and_Y (segment_to_gcode svg opts sp1 sp2).
Proof.
  unfold segment_to_gcode.
  destruct (String.eqb (curve_mode opts) "biarc");
    apply List.Forall_forall; intros l Hin;
    apply in_map_iff in Hin; destruct Hin as (a & <- & _).
  - apply arc_to_gcode_spells.
  - apply G1_spells.
Qed.

Lemma path_to_gcode_spells (svg : document) (opts : options)
  (csp : list (list node)) :
  Forall (fun l => is_motion l = false \/ spells_X_and_Y l)
         (_path_to_gcode svg opts csp).
Proof.
  unfold _path_to_gcode. apply Forall_concat_map. intros subpath _.
  destruct subpath as [| first [| second rest]]; try constructor.
  - right. unfold spells_X_and_Y; cbn. eauto.
  - constructor; [now left |].
    apply Forall_app; split.
    + apply Forall_concat_map. intros s _.
      eapply Forall_impl; [apply segment_to_gcode_spells |].
      intros l Hl. now right.
    + repeat constructor.
Qed.

(** C9, on the code. The emitter does not deduplicate: the two consecutive
    linear moves of the straight path go to the same Y with different X,
    and the second line still carries its Y field; in general every motion
    line of [_path_to_gcode] spells out both X and Y.  The generator class,
    which the emitter does not call, leaves the second Y out for the same
    two moves. *)
Theorem emitter_repeats_unchanged_Y :
  _path_to_gcode unit_document (polyline_options 2) straight_path
  = [mkLine "G0" [("X"%string, 0); ("Y"%string, 0)];
     mkLine "M03" [];
     mkLine "G1" [("X"%string, 5); ("Y"%string, 0); ("F"%string, 30)];
     mkLine "G1" [("X"%string, 10); ("Y"%string, 0); ("F"%string, 30)];
     mkLine "M05" []]
  /\ (forall svg opts csp,
        Forall (fun l => is_motion l = false \/ spells_X_and_Y l)
               (_path_to_gcode svg opts csp))
  /\ fst (line_to (mkGen (Some 5) (Some 0)) 10 0 (Some 30))
     = mkLine "G1" [("X"%string, 10); ("F"%string, 30)].
Proof.
  split; [apply straight_path_gcode; lia | split].
  - exact path_to_gcode_spells.
  - now rewrite (proj2 line_to_omits_unchanged_Y).
Qed.

(** ** The calibration *)

Section Calibration.
Variable is_layer : element -> bool.

(** The ancestor layers of a layer are its parent layer followed by the
    ancestor layers of that one. *)
Lemma ancestor_layers_parent (current parent : element) :
  _get_parent_layer is_layer current = Some parent ->
  List.filter is_layer (ancestors current)
  = parent :: List.filter is_layer (ancestors parent).
Proof.
  unfold _get_parent_layer.
  induction current as [| i rest IH]; simpl; [discriminate |].
  destruct (is_layer rest) eqn:E.
  - intros [= <-]. reflexivity.
  - exact IH.
Qed.

Lemma ancestor_layers_none (current : element) :
  _get_parent_layer is_layer current = None ->
  List.filter is_layer (ancestors current) = [].
Proof.
  unfold _get_parent_layer.
  induction current as [| i rest IH]; simpl; [reflexivity |].
  destruct (is_layer rest) eqn:E; [discriminate | exact IH].
Qed.

Lemma attached_None
  (found : gmap element (list (list correspondence))) (l : element) :
  found !! l = None -> attached found l = false.
Proof. intros H. unfold attached. now rewrite H. Qed.

Lemma attached_Some
  (found : gmap element (list (list correspondence))) (l : element)
  (groups : list (list correspondence)) :
  found !! l = Some groups -> attached found l = true.
Proof. intros H. unfold attached. now rewrite H. Qed.

(** The loop finds the applicable calibration and raises nothing. *)
Lemma lookup_points_applicable
  (found : gmap element (list (list correspondence))) (current : element) :
  well_formed found ->
  lookup_points is_layer found current
  = Return (applicable_calibration is_layer found current).
Proof.
  intros Hwf.
  funelim (lookup_points is_layer found current).
  - destruct (Hwf _ _ Heq) as [Hne _].
    destruct groups as [| points groups]; [contradiction |].
    unfold applicable_calibration, layer_chain. cbn [List.find].
    rewrite (attached_Some _ _ _ Heq). now rewrite Heq.
  - rewrite H by assumption. f_equal.
    unfold applicable_calibration, layer_chain. cbn [List.find].
    rewrite (attached_None _ _ Heq).
    now rewrite (ancestor_layers_parent _ _ Hparent).
  - unfold applicable_calibration, layer_chain. cbn [List.find].
    rewrite (attached_None _ _ Heq).
    now rewrite (ancestor_layers_none _ e).
Qed.

(** No calibration applies exactly when none is attached along the
    chain. *)
Lemma applicable_calibration_none
  (found : gmap element (list (list correspondence))) (layer : element) :
  well_formed found ->
  applicable_calibration is_layer found layer = None
  <-> (forall l, In l (layer_chain is_layer layer) -> found !! l = None).
Proof.
  intros Hwf. unfold applicable_calibration.
  destruct (List.find (attached found) (layer_chain is_layer layer))
    as [l |] eqn:Hfind.
  - apply find_some in Hfind. destruct Hfind as [Hin Hatt].
    unfold attached in Hatt.
    destruct (found !! l) as [groups |] eqn:Hl; [| discriminate].
    destruct (Hwf _ _ Hl) as [Hne _].
    destruct groups as [| points groups]; [contradiction |].
    split; [discriminate |].
    intros Hall. rewrite (Hall l Hin) in Hl. discriminate.
  - split; [| reflexivity]. intros _ l Hin.
    pose proof (find_none _ _ Hfind l Hin) as Hatt.
    unfold attached in Hatt.
    destruct (found !! l); [discriminate | reflexivity].
Qed.

(** An applicable calibration has two or three points. *)
Lemma applicable_calibration_length
  (found : gmap element (list (list correspondence))) (layer : element)
  (points : list correspondence) :
  well_formed found ->
  applicable_calibration is_layer found layer = Some points ->
  length points = 2%nat \/ length points = 3%nat.
Proof.
  intros Hwf. unfold applicable_calibration.
  destruct (List.find (attached found) (layer_chain is_layer layer))
    as [l |]; [| discriminate].
  destruct (found !! l) as [[| first groups] |] eqn:Hl; try discriminate.
  intros [= <-].
  destruct (Hwf _ _ Hl) as [_ Hall].
  now inversion Hall.
Qed.

End Calibration.

Lemma dist_sym (a b : point) : dist a b = dist b a.
Proof. unfold dist. f_equal. ring. Qed.

Lemma radians_degrees (x : R) : radians (degrees x) = x.
Proof. unfold radians, degrees. field. exact PI_neq0. Qed.

(** The solver on a calibration whose first two drawing points are apart. *)
Lemma calculate_transform_apart (d1 d2 : point) (m1 m2 : R * R * R)
  (rest : list correspondence) :
  ~ dist d1 d2 < 1 / 1000000 ->
  calculate_transform ((d1, m1) :: (d2, m2) :: rest)
  = Some (solved_transform d1 m1 d2 m2).
Proof.
  intros Hd. rewrite dist_sym in Hd. unfold calculate_transform.
  fold (dist d2 d1).
  destruct (Rlt_dec (dist d2 d1) (1 / 1000000)) as [Hlt | _];
    [contradiction |].
  unfold solved_transform, solved_scale, solved_rotation, machine_xy,
    new_transform, add_translate, add_scale, add_rotate; cbn [List.app fst snd].
  fold (dist (fst (fst m2), snd (fst m2)) (fst (fst m1), snd (fst m1))).
  now rewrite (dist_sym d1 d2).
Qed.

Lemma calculate_transform_coincide (d1 d2 : point) (m1 m2 : R * R * R)
  (rest : list correspondence) :
  dist d1 d2 < 1 / 1000000 ->
  calculate_transform ((d1, m1) :: (d2, m2) :: rest) = None.
Proof.
  intros Hd. rewrite dist_sym in Hd. unfold calculate_transform.
  fold (dist d2 d1).
  destruct (Rlt_dec (dist d2 d1) (1 / 1000000)) as [_ | Hn];
    [reflexivity | contradiction].
Qed.

(** A solved transform sends a point through its four operations from
    the last to the first: translate by machine1, rotate, scale, translate
    by -drawing1. *)
Lemma apply_solved_transform (d1 d2 : point) (m1 m2 : R * R * R) (p : point) :
  apply_to_point (solved_transform d1 m1 d2 m2) p
  = translate_by (- fst d1) (- snd d1)
      (scale_by (solved_scale d1 m1 d2 m2)
         (rotate_by (solved_rotation d1 m1 d2 m2)
            (translate_by (fst (machine_xy m1)) (snd (machine_xy m1)) p))).
Proof.
  unfold apply_to_point, solved_transform; cbn [fold_right apply_op].
  now rewrite radians_degrees.
Qed.

(** The numbers of the example: the drawing points are 100 apart, the
    machine points 50, and both pairs lie along x. *)
Lemma dist_along_x (a b : R) : 0 <= a - b -> dist (a, 0) (b, 0) = a - b.
Proof.
  intros H. unfold dist; cbn [fst snd].
  replace ((a - b) ^ 2 + (0 - 0) ^ 2) with ((a - b) * (a - b)) by ring.
  now apply sqrt_square.
Qed.

Lemma atan2_along_x (x : R) : 0 < x -> atan2 (0 - 0) x = 0.
Proof.
  intros H. unfold atan2.
  destruct (Rlt_dec 0 x) as [_ | Hn]; [| contradiction].
  replace ((0 - 0) / x) with 0 by (field; lra).
  exact atan_0.
Qed.

Lemma example_scale :
  solved_scale (0, 0) (0, 0, 0) (100, 0) (50, 0, 0) = 1 / 2.
Proof.
  unfold solved_scale, machine_xy; cbn [fst snd].
  rewrite (dist_sym (0, 0) (100, 0)), !dist_along_x by lra. field.
Qed.

Lemma example_rotation :
  solved_rotation (0, 0) (0, 0, 0) (100, 0) (50, 0, 0) = 0.
Proof.
  unfold solved_rotation, machine_xy; cbn [fst snd].
  rewrite !atan2_along_x by lra. ring.
Qed.

Lemma example_apart : 1 / 1000000 <= dist (0, 0) (100, 0).
Proof. rewrite dist_sym, dist_along_x by lra. lra. Qed.

Lemma example_maps :
  apply_to_point (solved_transform (0, 0) (0, 0, 0) (100, 0) (50, 0, 0))
                 (100, 0)
  = (50, 0).
Proof.
  rewrite apply_solved_transform, example_scale, example_rotation.
  unfold translate_by, rotate_by, scale_by, machine_xy; cbn [fst snd].
  rewrite cos_0, sin_0. f_equal; field.
Qed.

Section Lookup.
Variable is_layer : element -> bool.

Lemma lookup_points_attached
  (found : gmap element (list (list correspondence))) (layer : element)
  (points : list correspondence) (others : list (list correspondence)) :
  found !! layer = Some (points :: others) ->
  lookup_points is_layer found layer = Return (Some points).
Proof.
  intros Hatt. rewrite lookup_points_equation_1, Hatt. reflexivity.
Qed.

End Lookup.

(** The numbers of the offset calibration. *)
Lemma dist_horizontal (a b c : R) : 0 <= a - b -> dist (a, c) (b, c) = a - b.
Proof.
  intros H. unfold dist; cbn [fst snd].
  replace ((a - b) ^ 2 + (c - c) ^ 2) with ((a - b) * (a - b)) by ring.
  now apply sqrt_square.
Qed.

Lemma atan2_level (y x : R) : y = 0 -> 0 < x -> atan2 y x = 0.
Proof.
  intros -> H. unfold atan2.
  destruct (Rlt_dec 0 x) as [_ | Hn]; [| contradiction].
  replace (0 / x) with 0 by (field; lra).
  exact atan_0.
Qed.

Lemma offset_scale :
  solved_scale (10, 10) (0, 0, 0) (110, 10) (50, 0, 0) = 1 / 2.
Proof.
  unfold solved_scale, machine_xy; cbn [fst snd].
  rewrite (dist_sym (10, 10) (110, 10)), !dist_horizontal by lra. field.
Qed.

Lemma offset_rotation :
  solved_rotation (10, 10) (0, 0, 0) (110, 10) (50, 0, 0) = 0.
Proof.
  unfold solved_rotation, machine_xy; cbn [fst snd].
  rewrite !atan2_level by lra. ring.
Qed.

Lemma offset_apart : 1 / 1000000 <= dist (10, 10) (110, 10).
Proof. rewrite dist_sym, dist_horizontal by lra. lra. Qed.

Lemma offset_lookup :
  get_transform_for_layer no_layers offset_manager svg_root
  = (Return (Some (solved_transform (10, 10) (0, 0, 0) (110, 10) (50, 0, 0))),
     mkManager (orientation_points offset_manager)
       (<[ svg_root := solved_transform (10, 10) (0, 0, 0) (110, 10) (50, 0, 0) ]>
          (transforms offset_manager))).
Proof.
  unfold get_transform_for_layer.
  replace (transforms offset_manager !! svg_root) with (@None Transform)
    by reflexivity.
  rewrite (lookup_points_attached no_layers _ svg_root offset_calibration [])
    by apply lookup_insert_eq.
  unfold offset_calibration. cbn [length Nat.ltb Nat.leb].
  rewrite calculate_transform_apart; [reflexivity |].
  pose proof offset_apart. lra.
Qed.

(** C2, on the code. For the correspondences (10,10) -> (0,0) and
    (110,10) -> (50,0) the lookup returns the transform with the scale 1/2
    and the rotation 0 that the specification names, built by the four
    calls add_translate(-drawing1), add_scale, add_rotate,
    add_translate(machine1).  The transform applies them to a point from
    the last to the first: it sends drawing1 = (10,10) to (-5,-5), where
    the composition of the specification sends it to machine1 = (0,0).  In
    general a point is translated by machine1, rotated, scaled and then
    translated by -drawing1.  The example of the specification, whose two
    translations are by the origin, still sends (100,0) to (50,0). *)
Theorem calibration_order_reversed :
  1 / 1000000 <= dist (10, 10) (110, 10)
  /\ get_transform_for_layer no_layers offset_manager svg_root
     = (Return (Some [Translate (- 10) (- 10);
                      Scale (solved_scale (10, 10) (0, 0, 0) (110, 10)
                                          (50, 0, 0))
                            (solved_scale (10, 10) (0, 0, 0) (110, 10)
                                          (50, 0, 0));
                      Rotate (degrees (solved_rotation (10, 10) (0, 0, 0)
                                         (110, 10) (50, 0, 0)));
                      Translate 0 0]),
        mkManager (orientation_points offset_manager)
          (<[ svg_root := solved_transform (10, 10) (0, 0, 0) (110, 10)
                            (50, 0, 0) ]> (transforms offset_manager)))
  /\ solved_scale (10, 10) (0, 0, 0) (110, 10) (50, 0, 0) = 1 / 2
  /\ solved_rotation (10, 10) (0, 0, 0) (110, 10) (50, 0, 0) = 0
  /\ apply_to_point
       (solved_transform (10, 10) (0, 0, 0) (110, 10) (50, 0, 0)) (10, 10)
     = (- 5, - 5)
  /\ spec_composition (10, 10) (0, 0, 0) (110, 10) (50, 0, 0) (10, 10)
     = (0, 0)
  /\ (forall d1 m1 d2 m2 p,
        apply_to_point (solved_transform d1 m1 d2 m2) p
        = translate_by (- fst d1) (- snd d1)
            (scale_by (solved_scale d1 m1 d2 m2)
               (rotate_by (solved_rotation d1 m1 d2 m2)
                  (translate_by (fst (machine_xy m1)) (snd (machine_xy m1))
                     p))))
  /\ apply_to_point
       (solved_transform (0, 0) (0, 0, 0) (100, 0) (50, 0, 0)) (100, 0)
     = (50, 0).
Proof.
  split; [exact offset_apart |].
  split; [exact offset_lookup |].
  split; [exact offset_scale |].
  split; [exact offset_rotation |].
  split; [| split; [| split]].
  - rewrite apply_solved_transform, offset_scale, offset_rotation.
    unfold translate_by, rotate_by, scale_by, machine_xy; cbn [fst snd].
    rewrite cos_0, sin_0. f_equal; field.
  - unfold spec_composition. rewrite offset_scale, offset_rotation.
    unfold translate_by, rotate_by, scale_by, machine_xy; cbn [fst snd].
    rewrite cos_0, sin_0. f_equal; field.
  - intros d1 m1 d2 m2 p. apply apply_solved_transform.
  - exact example_maps.
Qed.

Section Absence.
Variable is_layer : element -> bool.

(** What the lookup returns on a cache miss. *)
Lemma get_transform_for_layer_miss (self : OrientationManager)
  (layer : element) :
  well_formed (orientation_points self) ->
  transforms self !! layer = None ->
  fst (get_transform_for_layer is_layer self layer)
  = Return match applicable_calibration is_layer (orientation_points self) layer with
           | Some points => calculate_transform points
           | None => None
           end.
Proof.
  intros Hwf Hmiss. unfold get_transform_for_layer. rewrite Hmiss.
  rewrite (lookup_points_applicable is_layer _ _ Hwf).
  destruct (applicable_calibration is_layer (orientation_points self) layer)
    as [points |] eqn:Happ; [| reflexivity].
  destruct (applicable_calibration_length is_layer _ _ _ Hwf Happ) as [Hl | Hl];
    rewrite Hl; cbn [Nat.ltb Nat.leb];
    destruct (calculate_transform points); reflexivity.
Qed.

(** The lookup raises nothing, and returns the solver's answer on the
    applicable calibration, also when it answers from the cache. *)
Lemma get_transform_for_layer_result (self : OrientationManager)
  (layer : element) :
  well_formed (orientation_points self) ->
  cache_consistent is_layer self ->
  fst (get_transform_for_layer is_layer self layer)
  = Return match applicable_calibration is_layer (orientation_points self) layer with
           | Some points => calculate_transform points
           | None => None
           end.
Proof.
  intros Hwf Hcache.
  destruct (transforms self !! layer) as [cached |] eqn:Hc.
  - unfold get_transform_for_layer. rewrite Hc. cbn [fst].
    destruct (Hcache _ _ Hc) as (points & -> & ->). reflexivity.
  - now apply get_transform_for_layer_miss.
Qed.

(** The solver gives nothing exactly on fewer than two points or on two
    coinciding drawing points, and never the empty transform. *)
Lemma calculate_transform_None (points : list correspondence) :
  (length points = 2%nat \/ length points = 3%nat) ->
  calculate_transform points = None
  <-> exists d1 m1 d2 m2 rest,
        points = (d1, m1) :: (d2, m2) :: rest /\ dist d1 d2 < 1 / 1000000.
Proof.
  intros Hlen.
  destruct points as [| [d1 m1] [| [d2 m2] rest]];
    try (cbn in Hlen; lia).
  destruct (Rlt_dec (dist d1 d2) (1 / 1000000)) as [Hlt | Hge].
  - rewrite calculate_transform_coincide by assumption.
    split; [| reflexivity]. intros _. now exists d1, m1, d2, m2, rest.
  - rewrite calculate_transform_apart by assumption.
    split; [discriminate |].
    intros (e1 & n1 & e2 & n2 & rest' & [= <- <- <- <- <-] & Hlt).
    contradiction.
Qed.

Lemma calculate_transform_not_identity (points : list correspondence) :
  calculate_transform points <> Some new_transform.
Proof.
  destruct points as [| [d1 m1] [| [d2 m2] rest]]; try discriminate.
  destruct (Rlt_dec (dist d1 d2) (1 / 1000000)) as [Hlt | Hge].
  - rewrite calculate_transform_coincide by assumption. discriminate.
  - rewrite calculate_transform_apart by assumption. discriminate.
Qed.

(** C3. The lookup for a layer raises no exception; it returns "no
    transform" exactly when no calibration is attached to the layer or to
    a layer of its ancestor chain, or the first two drawing points of the
    applicable calibration are less than 1e-6 apart; the applicable
    calibration is that of the nearest layer of the chain that has one,
    and the transform returned is the one solved from it, never the
    identity. *)
Theorem get_transform_for_layer_absent (self : OrientationManager)
  (layer : element) :
  well_formed (orientation_points self) ->
  cache_consistent is_layer self ->
  exists result,
    fst (get_transform_for_layer is_layer self layer) = Return result
    /\ (result = None
        <-> (forall l, In l (layer_chain is_layer layer) ->
                       orientation_points self !! l = None)
            \/ (exists d1 m1 d2 m2 rest,
                  applicable_calibration is_layer (orientation_points self)
                    layer = Some ((d1, m1) :: (d2, m2) :: rest)
                  /\ dist d1 d2 < 1 / 1000000))
    /\ result
       = match applicable_calibration is_layer (orientation_points self)
                 layer with
         | Some points => calculate_transform points
         | None => None
         end
    /\ result <> Some new_transform.
Proof.
  intros Hwf Hcache.
  eexists. split; [now apply get_transform_for_layer_result |].
  split; [| split; [reflexivity |]].
  - pose proof (applicable_calibration_none is_layer _ layer Hwf) as Hnone.
    destruct (applicable_calibration is_layer (orientation_points self) layer)
      as [points |] eqn:Happ.
    + pose proof (applicable_calibration_length is_layer _ _ _ Hwf Happ) as Hl.
      rewrite (calculate_transform_None points Hl). split.
      * intros (d1 & m1 & d2 & m2 & rest & -> & Hlt). right.
        now exists d1, m1, d2, m2, rest.
      * intros [Hall | (d1 & m1 & d2 & m2 & rest & [= ->] & Hlt)].
        -- apply Hnone in Hall. discriminate.
        -- now exists d1, m1, d2, m2, rest.
    + split; [| reflexivity]. intros _. left. now apply Hnone.
  - destruct (applicable_calibration is_layer (orientation_points self) layer);
      [apply calculate_transform_not_identity | discriminate].
Qed.

(** The lookup keeps the orientation points and a consistent cache. *)
Lemma get_transform_for_layer_consistent (self : OrientationManager)
  (layer : element) :
  well_formed (orientation_points self) ->
  cache_consistent is_layer self ->
  orientation_points (snd (get_transform_for_layer is_layer self layer))
  = orientation_points self
  /\ cache_consistent is_layer
       (snd (get_transform_for_layer is_layer self layer)).
Proof.
  intros Hwf Hcache. unfold get_transform_for_layer.
  destruct (transforms self !! layer) as [cached |] eqn:Hc;
    [split; [reflexivity | exact Hcache] |].
  rewrite (lookup_points_applicable is_layer _ _ Hwf).
  destruct (applicable_calibration is_layer (orientation_points self) layer)
    as [points |] eqn:Happ; [| split; [reflexivity | exact Hcache]].
  destruct (length points <? 2)%nat; [split; [reflexivity | exact Hcache] |].
  destruct (calculate_transform points) as [transform |] eqn:Hsolve;
    [| split; [reflexivity | exact Hcache]].
  split; [reflexivity |].
  intros l cached; cbn [snd transforms orientation_points].
  destruct (decide (l = layer)) as [-> | Hne].
  - rewrite lookup_insert_eq. intros [= <-]. now exists points.
  - rewrite lookup_insert_ne by congruence. apply Hcache.
Qed.

(** [find_orientation_points] stores well-formed orientation points. *)
Lemma register_group_well_formed
  (found : gmap element (list (list correspondence)))
  (group : element * list (option correspondence)) :
  well_formed found -> well_formed (register_group is_layer found group).
Proof.
  intros Hwf. unfold register_group.
  destruct (_parse_orientation_group (snd group)) as [points |] eqn:Hparse;
    [| exact Hwf].
  assert (Hlen : length points = 2%nat \/ length points = 3%nat).
  { unfold _parse_orientation_group in Hparse.
    destruct (length (omap (fun p => p) (snd group)) =? 2)%nat eqn:E2;
      cbn [orb] in Hparse.
    - injection Hparse as <-. left. now apply Nat.eqb_eq.
    - destruct (length (omap (fun p => p) (snd group)) =? 3)%nat eqn:E3;
        [| discriminate].
      injection Hparse as <-. right. now apply Nat.eqb_eq. }
  intros l groups.
  destruct (decide (l = _get_layer is_layer (fst group))) as [-> | Hne].
  - rewrite lookup_insert_eq. intros [= <-]. split.
    + intros Happ. apply app_eq_nil in Happ. destruct Happ as [_ Happ].
      discriminate.
    + apply Forall_app; split; [| constructor; [exact Hlen | constructor]].
      destruct (found !! _get_layer is_layer (fst group)) as [old |] eqn:Hold;
        cbn [default]; [| constructor].
      now destruct (Hwf _ _ Hold).
  - rewrite lookup_insert_ne by congruence. apply Hwf.
Qed.

Lemma find_orientation_points_well_formed (self : OrientationManager)
  (groups : list (element * list (option correspondence))) :
  well_formed
    (orientation_points (snd (find_orientation_points is_layer self groups))).
Proof.
  unfold find_orientation_points; cbn [snd orientation_points].
  assert (Hgen : forall found,
             well_formed found ->
             well_formed (fold_left (register_group is_layer) groups found)).
  { induction groups as [| group groups IH]; intros found Hwf; [exact Hwf |].
    cbn [fold_left]. apply IH. now apply register_group_well_formed. }
  apply Hgen. intros l groups' Hl. rewrite lookup_empty in Hl. discriminate.
Qed.

End Absence.

Lemma dist_same (a : point) : dist a a = 0.
Proof.
  unfold dist.
  replace ((fst a - fst a) ^ 2 + (snd a - snd a) ^ 2) with 0 by ring.
  exact sqrt_0.
Qed.

(** The two nested managers are well formed, with an empty cache. *)
Lemma singleton_well_formed (layer : element) (points : list correspondence) :
  length points = 2%nat ->
  well_formed (<[ layer := [points] ]> ∅).
Proof.
  intros Hlen l groups.
  destruct (decide (l = layer)) as [-> | Hne].
  - rewrite lookup_insert_eq. intros [= <-].
    split; [discriminate | constructor; [now left | constructor]].
  - rewrite lookup_insert_ne by congruence. rewrite lookup_empty. discriminate.
Qed.

Lemma empty_cache_consistent (is_layer : element -> bool)
  (found : gmap element (list (list correspondence))) :
  cache_consistent is_layer (mkManager found ∅).
Proof.
  intros l cached; cbn [transforms]. rewrite lookup_empty. discriminate.
Qed.

(** The inner layer has no calibration of its own and takes that of the
    outer layer. *)
Lemma inner_layer_applicable (points : list correspondence) :
  applicable_calibration nested_layers (<[ outer_layer := [points] ]> ∅)
    inner_layer
  = Some points.
Proof.
  unfold applicable_calibration, layer_chain, inner_layer, outer_layer.
  cbn [ancestors List.filter nested_layers List.find].
  rewrite attached_None
    by (rewrite lookup_insert_ne by discriminate; apply lookup_empty).
  rewrite (attached_Some _ _ [points]) by apply lookup_insert_eq.
  now rewrite lookup_insert_eq.
Qed.

Lemma inner_layer_inherits :
  fst (get_transform_for_layer nested_layers nested_manager inner_layer)
  = Return (Some (solved_transform (0, 0) (0, 0, 0) (100, 0) (50, 0, 0))).
Proof.
  rewrite get_transform_for_layer_result.
  - unfold nested_manager; cbn [orientation_points].
    rewrite inner_layer_applicable. unfold example_calibration.
    rewrite calculate_transform_apart; [reflexivity |].
    pose proof example_apart. lra.
  - now apply singleton_well_formed.
  - apply empty_cache_consistent.
Qed.

Lemma coinciding_points_absent :
  fst (get_transform_for_layer nested_layers coinciding_manager inner_layer)
  = Return None.
Proof.
  rewrite get_transform_for_layer_result.
  - unfold coinciding_manager; cbn [orientation_points].
    rewrite inner_layer_applicable. unfold coinciding_calibration.
    rewrite calculate_transform_coincide; [reflexivity |].
    rewrite dist_same. lra.
  - now apply singleton_well_formed.
  - apply empty_cache_consistent.
Qed.

Lemma get_transform_for_layer_absent_witness :
  well_formed (orientation_points coinciding_manager)
  /\ cache_consistent nested_layers coinciding_manager
  /\ exists result,
       fst (get_transform_for_layer nested_layers coinciding_manager
              inner_layer) = Return result
       /\ (result = None
           <-> (forall l, In l (layer_chain nested_layers inner_layer) ->
                          orientation_points coinciding_manager !! l = None)
               \/ (exists d1 m1 d2 m2 rest,
                     applicable_calibration nested_layers
                       (orientation_points coinciding_manager) inner_layer
                     = Some ((d1, m1) :: (d2, m2) :: rest)
                     /\ dist d1 d2 < 1 / 1000000)).
Proof.
  assert (Hwf : well_formed (orientation_points coinciding_manager))
    by now apply singleton_well_formed.
  assert (Hcache : cache_consistent nested_layers coinciding_manager)
    by apply empty_cache_consistent.
  split; [exact Hwf | split; [exact Hcache |]].
  destruct (get_transform_for_layer_absent nested_layers coinciding_manager
              inner_layer Hwf Hcache) as (result & Hr & Hiff & _).
  exists result. split; [exact Hr | exact Hiff].
Defined.

Lemma biarc_mode_never_clockwise_witness :
  (fit_biarc corner_1 corner_2
   = Some [arc (sp_1 corner_1) (join_point corner_1 corner_2)
             (midpoint (sp_1 corner_1) (join_point corner_1 corner_2)) 0;
           arc (join_point corner_1 corner_2) (sp_1 corner_2)
             (midpoint (join_point corner_1 corner_2) (sp_1 corner_2)) 0]
   /\ Forall flat_arc
        [arc (sp_1 corner_1) (join_point corner_1 corner_2)
           (midpoint (sp_1 corner_1) (join_point corner_1 corner_2)) 0;
         arc (join_point corner_1 corner_2) (sp_1 corner_2)
           (midpoint (join_point corner_1 corner_2) (sp_1 corner_2)) 0])
  /\ curve_mode biarc_options = "biarc"%string
  /\ Forall never_G02 (_path_to_gcode unit_document biarc_options corner_path).
Proof.
  destruct (fit_biarc_cases corner_1 corner_2) as [[_ Hfit] | [Hn _]];
    [| destruct (Hn corner_fit_accepts)].
  split; [split; [exact Hfit |] | split; [reflexivity |]].
  - exact (proj1 biarc_mode_never_clockwise corner_1 corner_2 _ Hfit).
  - exact (proj2 (proj2 biarc_mode_never_clockwise)
             unit_document biarc_options corner_path eq_refl).
Defined.

(** *** Two runs of the approximation *)

(** The S-curve is rejected by the fit, its unit tangents being parallel,
    and its first handle is a full unit away from the chord: at a depth
    below the maximum it is subdivided, so that calls at depth 1 occur. *)
Lemma s_curve_subdivides (max_depth : Z) :
  (0 < max_depth)%Z -> subdivides max_depth s_curve_1 s_curve_2 0.
Proof.
  intros Hmax.
  assert (Hchord : chord_length (sp_1 s_curve_1) (sp_1 s_curve_2) = 1).
  { unfold chord_length; cbn [sp_1 s_curve_1 s_curve_2 fst snd].
    replace ((1 - 0) ^ 2 + (0 - 0) ^ 2) with 1 by ring. exact sqrt_1. }
  split; [exact Hmax | split; [rewrite Hchord; lra | split]].
  - intros Hlt.
    assert (Hd1 : control_distance (sp_1 s_curve_1) (sp_2 s_curve_1)
                    (sp_1 s_curve_2) = 1).
    { unfold control_distance. rewrite Hchord.
      cbn [sp_1 sp_2 s_curve_1 s_curve_2 fst snd].
      replace ((1 - 0) * (1 - 0) - (0 - 0) * (0 - 0)) with 1 by ring.
      rewrite Rabs_R1. field. }
    pose proof (Rmax_l
      (control_distance (sp_1 s_curve_1) (sp_2 s_curve_1) (sp_1 s_curve_2))
      (control_distance (sp_1 s_curve_1) (sp_0 s_curve_2) (sp_1 s_curve_2)))
      as Hmaxl.
    rewrite Hd1 in Hmaxl at 1. lra.
  - left.
    destruct (fit_biarc_cases s_curve_1 s_curve_2) as [[Hacc _] | [_ Hnone]];
      [| exact Hnone].
    exfalso. destruct Hacc as (_ & _ & Hcross). apply Hcross.
    rewrite !unit_unit_length by (cbn; ring).
    unfold cross; cbn.
    replace ((0 - 0) * (0 - -1) - (1 - 0) * (1 - 1)) with 0 by ring.
    rewrite Rabs_R0. lra.
Qed.

Lemma s_curve_invoked_at_1 :
  invoked 1 s_curve_1 s_curve_2
    (sp_left s_curve_1 s_curve_2) (sp_mid s_curve_1 s_curve_2) 1.
Proof.
  apply (invoked_left 1 s_curve_1 s_curve_2 s_curve_1 s_curve_2 0).
  - constructor.
  - apply s_curve_subdivides. lia.
Qed.

(** With the maximal depth 1 the S-curve becomes the two chords of its
    halves. *)
Lemma s_curve_two_lines :
  biarc_approximation s_curve_1 s_curve_2 1
  = [line (sp_1 s_curve_1) (sp_1 (sp_mid s_curve_1 s_curve_2));
     line (sp_1 (sp_mid s_curve_1 s_curve_2)) (sp_1 s_curve_2)].
Proof.
  unfold biarc_approximation.
  rewrite split_and_approximate_subdivides by (apply s_curve_subdivides; lia).
  rewrite !split_and_approximate_exhausted by lia.
  reflexivity.
Qed.

(** The corner segment is accepted by the fit at depth 0: the emitter
    writes its two arcs as counterclockwise half circles around (1,0) and
    (3,0). *)
Lemma corner_two_arcs :
  biarc_approximation corner_1 corner_2 4
  = [arc (0, 0) (2, 0) (1, 0) 0; arc (2, 0) (4, 0) (3, 0) 0].
Proof.
  assert (Hchord : chord_length (sp_1 corner_1) (sp_1 corner_2) = 4).
  { unfold chord_length; cbn [sp_1 corner_1 corner_2 fst snd].
    replace ((4 - 0) ^ 2 + (0 - 0) ^ 2) with (4 * 4) by ring.
    apply sqrt_square. lra. }
  assert (Hd2 : control_distance (sp_1 corner_1) (sp_0 corner_2)
                  (sp_1 corner_2) = 1).
  { unfold control_distance. rewrite Hchord.
    cbn [sp_1 sp_0 corner_1 corner_2 fst snd].
    replace ((1 - 0) * (4 - 0) - (4 - 0) * (0 - 0)) with 4 by ring.
    rewrite Rabs_pos_eq by lra. field. }
  unfold biarc_approximation. rewrite split_and_approximate_body.
  destruct (Z_ge_dec 0 4) as [Hge | _]; [lia |].
  destruct (Rlt_dec _ _) as [Hlt | _]; [rewrite Hchord in Hlt; lra |].
  destruct (Rlt_dec _ _) as [Hlt | _].
  - pose proof (Rmax_r
      (control_distance (sp_1 corner_1) (sp_2 corner_1) (sp_1 corner_2))
      (control_distance (sp_1 corner_1) (sp_0 corner_2) (sp_1 corner_2)))
      as Hmaxr.
    rewrite Hd2 in Hmaxr at 1. lra.
  - destruct (fit_biarc_cases corner_1 corner_2) as [[_ ->] | [Hn _]];
      [| destruct (Hn corner_fit_accepts)].
    unfold join_point, midpoint; cbn [sp_1 corner_1 corner_2 fst snd].
    repeat f_equal; lra.
Qed.

Lemma corner_path_gcode :
  _path_to_gcode unit_document biarc_options corner_path
  = [mkLine "G0" [("X"%string, 0); ("Y"%string, 0)];
     mkLine "M03" [];
     mkLine "G03" [("X"%string, 2); ("Y"%string, 0);
                   ("I"%string, 1); ("J"%string, 0)];
     mkLine "G03" [("X"%string, 4); ("Y"%string, 0);
                   ("I"%string, 1); ("J"%string, 0)];
     mkLine "M05" []].
Proof.
  unfold _path_to_gcode, corner_path, subpath_to_gcode, segment_to_gcode.
  cbn [List.map List.concat segments fst snd List.app curve_mode
       biarc_options String.eqb Ascii.eqb Bool.eqb biarc_max_split_depth].
  rewrite corner_two_arcs.
  cbn [List.map List.app arc_to_gcode].
  destruct (Rlt_dec 0 0) as [Hlt | _]; [lra |].
  unfold out_x, out_y;
    cbn [fst snd px_per_mm page_height_px unit_document sp_1 corner_1].
  repeat f_equal; lra.
Qed.

(** * Further properties of the code *)

(** ** Vectors *)

Lemma mag_nonneg (a : P) : 0 <= mag a.
Proof. apply sqrt_pos. Qed.

Lemma sum_sq_nonneg (x y : R) : 0 <= x ^ 2 + y ^ 2.
Proof. nra. Qed.

Lemma mag_scale (a : P) (k : R) : 0 <= k -> mag (P_mul a k) = k * mag a.
Proof.
  intros Hk. unfold mag, P_mul; cbn [P_x P_y].
  replace ((P_x a * k) ^ 2 + (P_y a * k) ^ 2)
    with (k ^ 2 * (P_x a ^ 2 + P_y a ^ 2)) by ring.
  rewrite sqrt_mult by (try apply sum_sq_nonneg; nra).
  now rewrite sqrt_pow2.
Qed.

Lemma mag_triangle (a b : P) : mag (P_add a b) <= mag a + mag b.
Proof.
  pose proof (triangle (P_x a + P_x b) (P_y a + P_y b) 0 0 (P_x b) (P_y b))
    as H.
  unfold dist_euc, Rsqr in H. unfold mag, P_add; cbn [P_x P_y].
  replace ((P_x a + P_x b) ^ 2 + (P_y a + P_y b) ^ 2)
    with ((P_x a + P_x b - 0) * (P_x a + P_x b - 0)
          + (P_y a + P_y b - 0) * (P_y a + P_y b - 0)) by ring.
  replace (P_x a ^ 2 + P_y a ^ 2)
    with ((P_x a + P_x b - P_x b) * (P_x a + P_x b - P_x b)
          + (P_y a + P_y b - P_y b) * (P_y a + P_y b - P_y b)) by ring.
  replace (P_x b ^ 2 + P_y b ^ 2)
    with ((P_x b - 0) * (P_x b - 0) + (P_y b - 0) * (P_y b - 0)) by ring.
  exact H.
Qed.

Lemma mag_zero (a : P) : mag a = 0 <-> a = mkP 0 0.
Proof.
  split.
  - intros H. apply sqrt_eq_0 in H; [| apply sum_sq_nonneg].
    destruct a as [x y]; cbn [P_x P_y] in H.
    assert (x = 0) by nra. assert (y = 0) by nra. now subst.
  - intros ->. unfold mag; cbn [P_x P_y].
    replace (0 ^ 2 + 0 ^ 2) with 0 by ring. exact sqrt_0.
Qed.

(** A pair divided by its positive length has length 1. *)
Lemma normalized_length (x y : R) :
  0 < sqrt (x ^ 2 + y ^ 2) ->
  (x / sqrt (x ^ 2 + y ^ 2)) ^ 2 + (y / sqrt (x ^ 2 + y ^ 2)) ^ 2 = 1.
Proof.
  intros Hpos.
  pose proof (pow2_sqrt _ (sum_sq_nonneg x y)) as Hsq.
  set (m := sqrt (x ^ 2 + y ^ 2)) in *.
  replace ((x / m) ^ 2 + (y / m) ^ 2) with ((x ^ 2 + y ^ 2) / m ^ 2)
    by (field; lra).
  rewrite <- Hsq. field. lra.
Qed.

(** X1. [P.unit] and [normalize] return a vector of length 1 for every
    vector other than the zero vector, and the zero vector for the zero
    vector; no division by zero occurs. *)
Theorem unit_length (a : P) :
  (a = mkP 0 0 -> unit a = mkP 0 0 /\ normalize (to_list a) = (0, 0))
  /\ (a <> mkP 0 0 ->
      mag (unit a) = 1
      /\ mag (P_of (normalize (to_list a))) = 1
      /\ P_mul (unit a) (mag a) = a).
Proof.
  split.
  - intros ->. unfold unit, normalize, mag; cbn [P_x P_y to_list fst snd].
    replace (0 ^ 2 + 0 ^ 2) with 0 by ring. rewrite sqrt_0.
    destruct (Rlt_dec 0 0); [lra | now split].
  - intros Hne.
    assert (Hpos : 0 < mag a).
    { destruct (mag_nonneg a) as [H | H]; [exact H |].
      symmetry in H. apply mag_zero in H. contradiction. }
    unfold unit, normalize; cbn [to_list fst snd]. fold (mag a).
    destruct (Rlt_dec 0 (mag a)) as [_ | Hn]; [| contradiction].
    split; [| split].
    + unfold mag at 1, P_truediv; cbn [P_x P_y].
      unfold mag. rewrite normalized_length by exact Hpos. exact sqrt_1.
    + unfold mag at 1, P_of; cbn [P_x P_y fst snd].
      unfold mag. rewrite normalized_length by exact Hpos. exact sqrt_1.
    + destruct a as [x y]. unfold P_mul, P_truediv; cbn [P_x P_y].
      f_equal; field; lra.
Qed.

Lemma unit_length_witness :
  mkP 3 4 <> mkP 0 0 /\ mag (unit (mkP 3 4)) = 1.
Proof.
  assert (H : mkP 3 4 <> mkP 0 0) by (intros [= H _]; lra).
  split; [exact H |].
  exact (proj1 (proj2 (unit_length (mkP 3 4)) H)).
Defined.

(** X2. [P.rot] keeps the length of a vector, turning by 0 changes
    nothing, two turns are the turn by the sum of the angles, and [P.ccw]
    is the turn by a quarter circle, at a right angle to the vector. *)
Theorem rot_isometry (a : P) (theta1 theta2 : R) :
  mag (rot a theta1) = mag a
  /\ rot a 0 = a
  /\ rot (rot a theta1) theta2 = rot a (theta1 + theta2)
  /\ ccw a = rot a (PI / 2)
  /\ P_dot a (ccw a) = 0
  /\ mag (ccw a) = mag a.
Proof.
  destruct a as [x y].
  split; [| split; [| split; [| split; [| split]]]].
  - unfold mag, rot; cbn [P_x P_y]. f_equal.
    pose proof (sin2_cos2 theta1) as H. unfold Rsqr in H.
    replace ((x * cos theta1 - y * sin theta1) ^ 2
             + (x * sin theta1 + y * cos theta1) ^ 2)
      with ((x ^ 2 + y ^ 2)
            * (sin theta1 * sin theta1 + cos theta1 * cos theta1)) by ring.
    rewrite H. ring.
  - unfold rot; cbn [P_x P_y]. rewrite cos_0, sin_0. f_equal; ring.
  - unfold rot; cbn [P_x P_y]. rewrite cos_plus, sin_plus. f_equal; ring.
  - unfold rot, ccw; cbn [P_x P_y]. rewrite cos_PI2, sin_PI2. f_equal; ring.
  - unfold P_dot, ccw; cbn [P_x P_y]. ring.
  - unfold mag, ccw; cbn [P_x P_y]. f_equal. ring.
Qed.

(** ** Tangent, normal and curvature *)

Lemma normalize_slope_length (fx fy : R) :
  fst (normalize_slope fx fy) ^ 2 + snd (normalize_slope fx fy) ^ 2 = 1.
Proof.
  unfold normalize_slope.
  destruct (Rlt_dec 0 (sqrt (fx ^ 2 + fy ^ 2))) as [Hpos | _];
    cbn [fst snd]; [now apply normalized_length | ring].
Qed.

(** X3. [csp_normalized_slope] returns a vector of length 1 for every
    segment and every parameter, also where the derivatives vanish, and
    [csp_normalized_normal] returns a vector of length 1 at a right angle
    to it. *)
Theorem csp_normalized_slope_unit (sp1 sp2 : node) (t : R) :
  let slope := csp_normalized_slope sp1 sp2 t in
  let normal := csp_normalized_normal sp1 sp2 t in
  fst slope ^ 2 + snd slope ^ 2 = 1
  /\ fst normal ^ 2 + snd normal ^ 2 = 1
  /\ dot slope normal = 0.
Proof.
  cbv zeta.
  assert (Hslope : fst (csp_normalized_slope sp1 sp2 t) ^ 2
                   + snd (csp_normalized_slope sp1 sp2 t) ^ 2 = 1).
  { unfold csp_normalized_slope.
    repeat match goal with
           | |- context [if vanishes ?a ?b then _ else _] =>
               destruct (vanishes a b)
           end;
      try apply normalize_slope_length.
    cbn [fst snd]. ring. }
  split; [exact Hslope | split].
  - unfold csp_normalized_normal; cbn [fst snd]. rewrite <- Hslope. ring.
  - unfold dot, csp_normalized_normal; cbn [fst snd]. ring.
Qed.

(** A segment whose derivatives all vanish at the parameter: all four
    control points coincide, and the slope is the default (1,0). *)
Lemma csp_normalized_slope_point (p : point) (h1 h2 : point) (t : R) :
  csp_normalized_slope (mkNode h1 p p) (mkNode p p h2) t = (1, 0).
Proof.
  destruct p as [x y].
  unfold csp_normalized_slope, csp_parameterize, bezier_parameterize;
    cbn [sp_0 sp_1 sp_2 c_ax c_ay c_bx c_by c_cx c_cy].
  assert (Hv : forall u v : R, u = 0 -> v = 0 -> vanishes u v = true).
  { intros u v -> ->. unfold vanishes. rewrite Rabs_R0.
    destruct (Rlt_dec 0 (1 / 10000000000)); [reflexivity | lra]. }
  rewrite !Hv by ring. reflexivity.
Qed.


(** ** The length estimate *)

Lemma chord_length_vector (a b : point) (v : P) :
  fst b - fst a = P_x v -> snd b - snd a = P_y v -> chord_length a b = mag v.
Proof. intros Hx Hy. unfold chord_length, mag. now rewrite Hx, Hy. Qed.

Lemma chord_triangle (a b c : point) :
  chord_length a c <= chord_length a b + chord_length b c.
Proof.
  rewrite (chord_length_vector a b (mkP (fst b - fst a) (snd b - snd a)))
    by reflexivity.
  rewrite (chord_length_vector b c (mkP (fst c - fst b) (snd c - snd b)))
    by reflexivity.
  rewrite (chord_length_vector a c
             (P_add (mkP (fst b - fst a) (snd b - snd a))
                    (mkP (fst c - fst b) (snd c - snd b))))
    by (cbn [P_add P_x P_y]; ring).
  apply mag_triangle.
Qed.

Lemma chord_le_control_polygon (sp1 sp2 : node) :
  chord_length (sp_1 sp1) (sp_1 sp2) <= control_polygon_length sp1 sp2.
Proof.
  unfold control_polygon_length.
  pose proof (chord_triangle (sp_1 sp1) (sp_2 sp1) (sp_1 sp2)).
  pose proof (chord_triangle (sp_2 sp1) (sp_0 sp2) (sp_1 sp2)).
  lra.
Qed.

(** The control polygons of the two halves are together no longer than
    the control polygon of the segment. *)
Lemma control_polygon_split (sp1 sp2 : node) :
  control_polygon_length (sp_left sp1 sp2) (sp_mid sp1 sp2)
  + control_polygon_length (sp_mid sp1 sp2) (sp_right sp1 sp2)
  <= control_polygon_length sp1 sp2.
Proof.
  destruct sp1 as [h1 [x0 y0] [x1 y1]], sp2 as [[x2 y2] [x3 y3] h2].
  set (A := mkP (x1 - x0) (y1 - y0)).
  set (B := mkP (x2 - x1) (y2 - y1)).
  set (C := mkP (x3 - x2) (y3 - y2)).
  unfold control_polygon_length, sp_left, sp_mid, sp_right, csp_split;
    cbn [fst snd sp_0 sp_1 sp_2].
  rewrite (chord_length_vector (x0, y0) (x1, y1) A) by reflexivity.
  rewrite (chord_length_vector (x1, y1) (x2, y2) B) by reflexivity.
  rewrite (chord_length_vector (x2, y2) (x3, y3) C) by reflexivity.
  rewrite (chord_length_vector (x0, y0) _ (P_mul A (1 / 2)))
    by (unfold lerp; cbn; field).
  rewrite (chord_length_vector _ (x3, y3) (P_mul C (1 / 2)))
    by (unfold lerp; cbn; field).
  rewrite (chord_length_vector (lerp (x0, y0) (x1, y1) (1 / 2)) _
             (P_mul (P_add A B) (1 / 4)))
    by (unfold lerp; cbn; field).
  rewrite (chord_length_vector _ (lerp (x2, y2) (x3, y3) (1 / 2))
             (P_mul (P_add B C) (1 / 4)))
    by (unfold lerp; cbn; field).
  rewrite (chord_length_vector
             (lerp (lerp (x0, y0) (x1, y1) (1 / 2))
                   (lerp (x1, y1) (x2, y2) (1 / 2)) (1 / 2)) _
             (P_mul (P_add (P_add A B) (P_add B C)) (1 / 8)))
    by (unfold lerp; cbn; field).
  rewrite (chord_length_vector _
             (lerp (lerp (x1, y1) (x2, y2) (1 / 2))
                   (lerp (x2, y2) (x3, y3) (1 / 2)) (1 / 2))
             (P_mul (P_add (P_add A B) (P_add B C)) (1 / 8)))
    by (unfold lerp; cbn; field).
  rewrite !mag_scale by lra.
  pose proof (mag_triangle A B).
  pose proof (mag_triangle B C).
  pose proof (mag_triangle (P_add A B) (P_add B C)).
  lra.
Qed.

Lemma chord_split (sp1 sp2 : node) :
  chord_length (sp_1 sp1) (sp_1 sp2)
  <= chord_length (sp_1 (sp_left sp1 sp2)) (sp_1 (sp_mid sp1 sp2))
     + chord_length (sp_1 (sp_mid sp1 sp2)) (sp_1 (sp_right sp1 sp2)).
Proof. apply chord_triangle. Qed.

(** The body of [recursive_length]. *)
Lemma recursive_length_body (tolerance : R) (sp1 sp2 : node) (depth : Z) :
  recursive_length tolerance sp1 sp2 depth
  = if Z_gt_dec depth 10 then chord_length (sp_1 sp1) (sp_1 sp2)
    else if Rlt_dec (0 + chord_length (sp_1 sp1) (sp_2 sp1)
                       + chord_length (sp_2 sp1) (sp_0 sp2)
                       + chord_length (sp_0 sp2) (sp_1 sp2)
                     - chord_length (sp_1 sp1) (sp_1 sp2)) tolerance
    then 0 + chord_length (sp_1 sp1) (sp_2 sp1)
           + chord_length (sp_2 sp1) (sp_0 sp2)
           + chord_length (sp_0 sp2) (sp_1 sp2)
    else recursive_length tolerance
           (sp_left sp1 sp2) (sp_mid sp1 sp2) (depth + 1)
         + recursive_length tolerance
             (sp_mid sp1 sp2) (sp_right sp1 sp2) (depth + 1).
Proof.
  rewrite recursive_length_equation_1.
  destruct (Z_gt_dec depth 10); cbn; [reflexivity |].
  destruct (Rlt_dec _ _); reflexivity.
Qed.

Lemma recursive_length_bounds (n : nat) :
  forall (tolerance : R) (sp1 sp2 : node) (depth : Z),
    Z.to_nat (11 - depth) = n ->
    chord_length (sp_1 sp1) (sp_1 sp2)
    <= recursive_length tolerance sp1 sp2 depth
    <= control_polygon_length sp1 sp2.
Proof.
  induction n as [| n IH]; intros tolerance sp1 sp2 depth Hn;
    rewrite recursive_length_body;
    pose proof (chord_le_control_polygon sp1 sp2) as Hcp.
  - destruct (Z_gt_dec depth 10); [lra | lia].
  - destruct (Z_gt_dec depth 10); [lra |].
    destruct (Rlt_dec _ _); [unfold control_polygon_length in *; lra |].
    pose proof (IH tolerance (sp_left sp1 sp2) (sp_mid sp1 sp2)
                  (depth + 1)%Z ltac:(lia)).
    pose proof (IH tolerance (sp_mid sp1 sp2) (sp_right sp1 sp2)
                  (depth + 1)%Z ltac:(lia)).
    pose proof (control_polygon_split sp1 sp2).
    pose proof (chord_split sp1 sp2).
    lra.
Qed.

(** X5. For every tolerance, [csp_length] lies between the distance of
    the two anchors and the length of the control polygon; it is the
    length of the control polygon as soon as that exceeds the chord by
    less than the tolerance, and so the exact length on a segment whose
    control polygon is as long as its chord. *)
Theorem csp_length_bounds (sp1 sp2 : node) (tolerance : R) :
  chord_length (sp_1 sp1) (sp_1 sp2) <= csp_length sp1 sp2 tolerance
  /\ csp_length sp1 sp2 tolerance <= control_polygon_length sp1 sp2
  /\ (control_polygon_length sp1 sp2 - chord_length (sp_1 sp1) (sp_1 sp2)
      < tolerance ->
      csp_length sp1 sp2 tolerance = control_polygon_length sp1 sp2)
  /\ (control_polygon_length sp1 sp2 = chord_length (sp_1 sp1) (sp_1 sp2) ->
      csp_length sp1 sp2 tolerance = chord_length (sp_1 sp1) (sp_1 sp2)).
Proof.
  pose proof (recursive_length_bounds _ tolerance sp1 sp2 0 eq_refl)
    as [Hlow Hhigh].
  split; [exact Hlow | split; [exact Hhigh | split]].
  - intros Htol. unfold csp_length. rewrite recursive_length_body.
    destruct (Z_gt_dec 0 10); [lia |].
    unfold control_polygon_length in *.
    destruct (Rlt_dec _ _) as [_ | Hn]; [ring | exfalso; apply Hn; lra].
  - intros Heq. unfold csp_length in *. lra.
Qed.

Lemma csp_length_bounds_witness :
  control_polygon_length corner_1 corner_2
  - chord_length (sp_1 corner_1) (sp_1 corner_2) < 10
  /\ csp_length corner_1 corner_2 10 = control_polygon_length corner_1 corner_2.
Proof.
  assert (H : control_polygon_length corner_1 corner_2
              - chord_length (sp_1 corner_1) (sp_1 corner_2) < 10).
  { unfold control_polygon_length, chord_length;
      cbn [sp_0 sp_1 sp_2 corner_1 corner_2 fst snd].
    replace ((1 - 0) ^ 2 + (0 - 0) ^ 2) with 1 by ring.
    replace ((4 - 4) ^ 2 + (0 - 1) ^ 2) with 1 by ring.
    replace ((4 - 0) ^ 2 + (0 - 0) ^ 2) with (4 * 4) by ring.
    replace ((4 - 1) ^ 2 + (1 - 0) ^ 2) with 10 by ring.
    rewrite sqrt_1, sqrt_square by lra.
    assert (sqrt 10 < 10); [| lra].
    rewrite <- (sqrt_square 10) at 2 by lra.
    apply sqrt_lt_1_alt. lra. }
  split; [exact H |].
  exact (proj1 (proj2 (proj2 (csp_length_bounds corner_1 corner_2 10))) H).
Defined.

(** ** More on the segment and its approximation *)

Lemma lerp_affine (m11 m12 m21 m22 tx ty : R) (a b : point) (t : R) :
  lerp (affine m11 m12 m21 m22 tx ty a) (affine m11 m12 m21 m22 tx ty b) t
  = affine m11 m12 m21 m22 tx ty (lerp a b t).
Proof. unfold lerp, affine; cbn [fst snd]. f_equal; ring. Qed.

(** X8. Evaluation and subdivision commute with every affine map of the
    plane: moving the control points and then evaluating or splitting
    gives the moved point and the moved halves. *)
Theorem csp_affine_invariance (m11 m12 m21 m22 tx ty : R) (sp1 sp2 : node)
  (t : R) :
  let f := affine m11 m12 m21 m22 tx ty in
  csp_at_t (map_node f sp1) (map_node f sp2) t = f (csp_at_t sp1 sp2 t)
  /\ csp_split (map_node f sp1) (map_node f sp2) t
     = (map_node f (fst (fst (csp_split sp1 sp2 t))),
        map_node f (snd (fst (csp_split sp1 sp2 t))),
        map_node f (snd (csp_split sp1 sp2 t))).
Proof.
  cbv zeta.
  destruct sp1 as [[hx1 hy1] [x0 y0] [x1 y1]],
           sp2 as [[x2 y2] [x3 y3] [hx2 hy2]].
  split.
  - unfold csp_at_t, csp_parameterize, bezier_parameterize, map_node, affine;
      cbn. f_equal; ring.
  - unfold csp_split, map_node; cbn [fst snd sp_0 sp_1 sp_2].
    now rewrite !lerp_affine.
Qed.

(** X6. A segment whose two handles lie on the line through its anchors
    is approximated by the single line from P0 to P3, for every maximal
    depth: no arc is fitted and nothing is subdivided. *)
Theorem biarc_approximation_straight (sp1 sp2 : node) (max_depth : Z) :
  (snd (sp_2 sp1) - snd (sp_1 sp1)) * (fst (sp_1 sp2) - fst (sp_1 sp1))
  - (fst (sp_2 sp1) - fst (sp_1 sp1)) * (snd (sp_1 sp2) - snd (sp_1 sp1)) = 0 ->
  (snd (sp_0 sp2) - snd (sp_1 sp1)) * (fst (sp_1 sp2) - fst (sp_1 sp1))
  - (fst (sp_0 sp2) - fst (sp_1 sp1)) * (snd (sp_1 sp2) - snd (sp_1 sp1)) = 0 ->
  biarc_approximation sp1 sp2 max_depth = [line (sp_1 sp1) (sp_1 sp2)].
Proof.
  intros H1 H2. unfold biarc_approximation.
  rewrite split_and_approximate_body.
  destruct (Z_ge_dec 0 max_depth); [reflexivity |].
  destruct (Rlt_dec _ _); [reflexivity |].
  destruct (Rlt_dec _ _) as [_ | Hn]; [reflexivity |].
  exfalso. apply Hn. unfold control_distance. rewrite H1, H2, Rabs_R0.
  unfold Rdiv. rewrite Rmult_0_l. unfold Rmax.
  destruct (Rle_dec 0 0); lra.
Qed.

Lemma biarc_approximation_straight_witness :
  biarc_approximation straight_1 straight_2 4
  = [line (sp_1 straight_1) (sp_1 straight_2)].
Proof.
  apply (biarc_approximation_straight straight_1 straight_2 4);
    cbn [sp_0 sp_1 sp_2 straight_1 straight_2 fst snd]; ring.
Defined.

Lemma chained_app (a b c : point) (l1 l2 : list primitive) :
  chained a l1 b -> chained b l2 c -> chained a (l1 ++ l2) c.
Proof.
  revert a. induction l1 as [| p l1 IH]; intros a H1 H2; cbn in *.
  - now subst.
  - destruct H1 as [Hs H1]. split; [exact Hs | now apply IH].
Qed.

Lemma split_and_approximate_chained (n : nat) :
  forall (max_depth : Z) (sp1 sp2 : node) (depth : Z),
    Z.to_nat (max_depth - depth) = n ->
    split_and_approximate max_depth sp1 sp2 depth <> []
    /\ chained (sp_1 sp1) (split_and_approximate max_depth sp1 sp2 depth)
         (sp_1 sp2).
Proof.
  induction n as [| n IH]; intros max_depth sp1 sp2 depth Hn.
  - rewrite split_and_approximate_exhausted by lia.
    split; [discriminate | now cbn].
  - destruct (subdivides_dec max_depth sp1 sp2 depth) as [Hs | Hs].
    + rewrite (split_and_approximate_subdivides _ _ _ _ Hs).
      destruct (IH max_depth (sp_left sp1 sp2) (sp_mid sp1 sp2)
                  (depth + 1)%Z ltac:(lia)) as [Hne1 Hc1].
      destruct (IH max_depth (sp_mid sp1 sp2) (sp_right sp1 sp2)
                  (depth + 1)%Z ltac:(lia)) as [Hne2 Hc2].
      split.
      * intros Happ. apply app_eq_nil in Happ. destruct Happ as [Happ _].
        contradiction.
      * eapply chained_app; [exact Hc1 | exact Hc2].
    + destruct (split_and_approximate_leaf _ _ _ _ Hs) as [-> | Hfit].
      * split; [discriminate | now cbn].
      * destruct (fit_biarc_cases sp1 sp2) as [[_ Hc] | [_ Hc]];
          rewrite Hc in Hfit; [| discriminate].
        injection Hfit as <-. split; [discriminate | now cbn].
Qed.

(** X7. The primitives of an approximation are never none, and they lead
    from P0 to P3 in the order of the curve: the first starts at P0, each
    one starts where the one before it ends, and the last ends at P3. *)
Theorem biarc_approximation_chained (sp1 sp2 : node) (max_depth : Z) :
  biarc_approximation sp1 sp2 max_depth <> []
  /\ chained (sp_1 sp1) (biarc_approximation sp1 sp2 max_depth) (sp_1 sp2).
Proof.
  now apply (split_and_approximate_chained (Z.to_nat (max_depth - 0))).
Qed.

(** ** The generator *)

Lemma changed_false (current : option R) (v : R) :
  changed current v = false ->
  exists c, current = Some c /\ Rabs (v - c) <= 1 / 1000000.
Proof.
  unfold changed. destruct current as [c |]; [| discriminate].
  destruct (Rgt_dec (Rabs (v - c)) (1 / 1000000)); [discriminate |].
  intros _. exists c. split; [reflexivity | lra].
Qed.

Lemma changed_within (c v : R) :
  Rabs (v - c) <= 1 / 1000000 -> changed (Some c) v = false.
Proof.
  intros H. unfold changed.
  destruct (Rgt_dec (Rabs (v - c)) (1 / 1000000)); [lra | reflexivity].
Qed.

(** What is tracked for an axis after a move to [v]. *)
Lemma tracked_within (current : option R) (v : R) :
  exists c,
    (if changed current v then Some v else current) = Some c
    /\ Rabs (v - c) <= 1 / 1000000.
Proof.
  destruct (changed current v) eqn:E.
  - exists v. split; [reflexivity |].
    replace (v - v) with 0 by ring. rewrite Rabs_R0. lra.
  - now apply changed_false.
Qed.

(** X9. After [move_to], from whatever state, the generator tracks on
    each axis a coordinate within 1e-6 of the target; the same move once
    more writes the bare command word without a coordinate and leaves the
    state as it is. *)
Theorem move_to_tracks (self : GCodeGenerator) (x y : R) (rapid : bool) :
  let moved := snd (move_to self x y rapid) in
  (exists cx cy,
      current_x moved = Some cx /\ current_y moved = Some cy
      /\ Rabs (x - cx) <= 1 / 1000000 /\ Rabs (y - cy) <= 1 / 1000000)
  /\ move_to moved x y rapid
     = (mkLine (if rapid then "G0" else "G1") [], moved).
Proof.
  cbv zeta. rewrite (proj2 (move_to_fields self x y rapid)).
  destruct (tracked_within (current_x self) x) as (cx & Hx & Hcx).
  destruct (tracked_within (current_y self) y) as (cy & Hy & Hcy).
  rewrite Hx, Hy. split; [now exists cx, cy |].
  unfold move_to; cbn [current_x current_y].
  rewrite (changed_within cx x Hcx); cbn [current_x current_y].
  now rewrite (changed_within cy y Hcy).
Qed.

(** X10. [line_to] and [arc_to] write the X and Y that [move_to] writes
    from the same state and leave the same state; [line_to] adds the feed,
    and [arc_to] always adds I and J before the feed. *)
Theorem line_to_arc_to_like_move_to (self : GCodeGenerator) (x y i j : R)
  (clockwise : bool) (feed : option R) :
  let written := fields (fst (move_to self x y false)) in
  let tail := match feed with Some f => [("F"%string, f)] | None => [] end in
  line_to self x y feed
  = (mkLine "G1" (written ++ tail), snd (move_to self x y false))
  /\ arc_to self x y i j clockwise feed
     = (mkLine (if clockwise then "G02" else "G03")
               (written ++ [("I"%string, i); ("J"%string, j)] ++ tail),
        snd (move_to self x y false)).
Proof.
  cbv zeta. unfold line_to, arc_to, move_to.
  destruct self as [cx cy]; cbn [current_x current_y].
  destruct (changed cx x); cbn [current_x current_y];
    destruct (changed cy y); destruct feed; cbn [fst snd fields word];
    split; rewrite <- ?app_assoc; reflexivity.
Qed.

(** ** The formatter *)

(** [optimize] is the recursion [optimize_from] from the empty state. *)
Lemma optimize_fold (lines acc : list string) (last_command : option string) :
  fst (fold_left optimize_step lines (acc, last_command))
  = acc ++ optimize_from (match acc with [] => false | _ => true end)
             last_command lines.
Proof.
  revert acc last_command.
  induction lines as [| ln rest IH]; intros acc last_command.
  - cbn. now rewrite app_nil_r.
  - cbn [fold_left optimize_from].
    assert (Hsnoc : forall l : list string,
               match l ++ [ln] with [] => false | _ => true end = true)
      by (intros [| ? ?]; reflexivity).
    unfold optimize_step at 2.
    destruct acc as [| a acc]; cbn [negb andb].
    + destruct (is_blank ln); [apply IH |].
      destruct (is_comment ln); cbn [orb].
      * destruct (differs ln last_command); rewrite IH; [| reflexivity].
        reflexivity.
      * destruct (is_mode ln).
        -- destruct (differs ln last_command); rewrite IH; reflexivity.
        -- rewrite IH. reflexivity.
    + destruct (is_comment ln); cbn [orb].
      * destruct (differs ln last_command); rewrite IH;
          [rewrite Hsnoc, <- app_assoc |]; reflexivity.
      * destruct (is_mode ln).
        -- destruct (differs ln last_command); rewrite IH;
             [rewrite Hsnoc, <- app_assoc |]; reflexivity.
        -- rewrite IH, Hsnoc, <- app_assoc. reflexivity.
Qed.

Lemma optimize_recursion (lines : list string) :
  optimize lines = optimize_from false None lines.
Proof. unfold optimize. now rewrite optimize_fold. Qed.

Lemma optimize_from_sublist (started : bool) (last_command : option string)
  (lines : list string) :
  optimize_from started last_command lines `sublist_of` lines.
Proof.
  revert started last_command.
  induction lines as [| ln rest IH]; intros started last_command;
    cbn [optimize_from]; [constructor |].
  destruct (negb started && is_blank ln); [apply sublist_cons, IH |].
  destruct (is_comment ln || is_mode ln);
    [destruct (differs ln last_command) |];
    first [apply sublist_skip, IH | apply sublist_cons, IH].
Qed.

Lemma optimize_from_commands (started : bool) (last_command : option string)
  (lines : list string) :
  List.filter is_command (optimize_from started last_command lines)
  = List.filter is_command lines.
Proof.
  revert started last_command.
  induction lines as [| ln rest IH]; intros started last_command;
    cbn [optimize_from List.filter]; [reflexivity |].
  unfold is_command at 2.
  destruct started; cbn [negb andb].
  - destruct (is_comment ln) eqn:Ec; cbn [orb].
    + rewrite andb_false_r; cbn [andb].
      destruct (differs ln last_command); [cbn [List.filter] |]; rewrite ?IH;
        unfold is_command; now rewrite ?Ec, ?andb_false_r.
    + destruct (is_mode ln) eqn:Em.
      * rewrite andb_false_r.
        destruct (differs ln last_command); [cbn [List.filter] |]; rewrite ?IH;
          unfold is_command; now rewrite ?Em, ?andb_false_r.
      * cbn [List.filter]. rewrite IH. unfold is_command.
        now rewrite Ec, Em.
  - destruct (is_blank ln) eqn:Eb; cbn [negb andb]; [apply IH |].
    destruct (is_comment ln) eqn:Ec; cbn [orb negb andb].
    + destruct (differs ln last_command); [cbn [List.filter] |]; rewrite ?IH;
        unfold is_command; now rewrite ?Ec, ?andb_false_r.
    + destruct (is_mode ln) eqn:Em; cbn [negb].
      * destruct (differs ln last_command); [cbn [List.filter] |]; rewrite ?IH;
          unfold is_command; now rewrite ?Em, ?andb_false_r.
      * cbn [List.filter]. rewrite IH. unfold is_command.
        now rewrite Eb, Ec, Em.
Qed.

Lemma differs_false (ln : string) (last_command : option string) :
  differs ln last_command = false -> last_command = Some ln.
Proof.
  unfold differs. destruct last_command as [c |]; [| discriminate].
  intros H. apply negb_false_iff, String.eqb_eq in H. now subst.
Qed.

Lemma optimize_from_no_repeat (last_command : option string)
  (lines : list string) :
  no_repeat last_command (optimize_from true last_command lines).
Proof.
  revert last_command.
  induction lines as [| ln rest IH]; intros last_command;
    cbn [optimize_from negb andb]; [exact I |].
  destruct (is_comment ln || is_mode ln) eqn:Ed.
  - destruct (differs ln last_command) eqn:Ediff.
    + cbn [no_repeat]. split; [intros _; exact Ediff | apply IH].
    + apply differs_false in Ediff. subst last_command. apply IH.
  - cbn [no_repeat]. split; [rewrite Ed; discriminate | apply IH].
Qed.

Lemma optimize_from_fixed (last_command : option string)
  (lines : list string) :
  no_repeat last_command lines ->
  optimize_from true last_command lines = lines.
Proof.
  revert last_command.
  induction lines as [| ln rest IH]; intros last_command Hno;
    cbn [optimize_from negb andb]; [reflexivity |].
  destruct Hno as [Hhead Hrest].
  destruct (is_comment ln || is_mode ln).
  - rewrite (Hhead eq_refl). f_equal. now apply IH.
  - f_equal. now apply IH.
Qed.

(** X11. [optimize] only drops lines: its result is the input with some
    lines left out, in the same order; it keeps every line that is neither
    blank, nor a comment, nor one of G90, G91, G21, G20; its result does
    not begin with a blank line, and in it no comment and no mode word
    follows an equal line. *)
Theorem optimize_only_drops (lines : list string) :
  optimize lines `sublist_of` lines
  /\ List.filter is_command (optimize lines) = List.filter is_command lines
  /\ match optimize lines with
     | [] => True
     | first :: rest => is_blank first = false /\ no_repeat (Some first) rest
     end.
Proof.
  rewrite optimize_recursion.
  split; [apply optimize_from_sublist | split; [apply optimize_from_commands |]].
  induction lines as [| ln rest IH]; cbn [optimize_from negb andb];
    [exact I |].
  destruct (is_blank ln) eqn:Eb; [exact IH |].
  destruct (is_comment ln || is_mode ln); cbn [differs];
    (split; [exact Eb | apply optimize_from_no_repeat]).
Qed.

(** X12. [optimize] is idempotent: optimizing an optimized list of lines
    changes nothing. *)
Theorem optimize_idempotent (lines : list string) :
  optimize (optimize lines) = optimize lines.
Proof.
  rewrite !optimize_recursion.
  induction lines as [| ln rest IH]; cbn [optimize_from negb andb];
    [reflexivity |].
  destruct (is_blank ln) eqn:Eb; [exact IH |].
  assert (Hkept : optimize_from false None
                    (ln :: optimize_from true (Some ln) rest)
                  = ln :: optimize_from true (Some ln) rest).
  { cbn [optimize_from negb andb differs]. rewrite Eb.
    destruct (is_comment ln || is_mode ln); f_equal;
      apply optimize_from_fixed, optimize_from_no_repeat. }
  destruct (is_comment ln || is_mode ln); cbn [differs]; exact Hkept.
Qed.

(** A run of the formatter: the leading blank line, the second G90 and
    the second comment go. *)
Example optimize_run :
  optimize (add_line (add_comment (add_comment (add_line (add_line
              (add_line (add_blank_line new_formatter) "") "G90") "G90")
              "cut") "cut") "G1 X1")
  = ["G90"; "; cut"; "G1 X1"]%string.
Proof. reflexivity. Qed.

(** ** Layers and orientation points *)

Section Layers.
Variable is_layer : element -> bool.

Lemma root_among_ancestors (e : element) : In svg_root (e :: ancestors e).
Proof.
  induction e as [| i rest IH]; [now left |].
  right. exact IH.
Qed.

Lemma ancestors_shorter (e p : element) :
  In p (ancestors e) -> (length p < length e)%nat.
Proof.
  induction e as [| i rest IH]; cbn; [tauto |].
  intros [<- | Hin]; [lia |]. specialize (IH Hin). lia.
Qed.

(** X13. [_get_layer] returns the element itself if it is a layer,
    otherwise its nearest ancestor that is one, otherwise the root; the
    result is the root or a layer among the element and its ancestors, and
    its own layer is itself.  [_get_parent_layer] returns only layers
    strictly above the element, and the layer of an element that is not a
    layer is its parent layer, or the root if it has none. *)
Theorem get_layer_nearest (e : element) :
  (is_layer e = true -> _get_layer is_layer e = e)
  /\ (is_layer e = false ->
      _get_layer is_layer e
      = match _get_parent_layer is_layer e with
        | Some parent => parent
        | None => svg_root
        end)
  /\ (_get_layer is_layer e = svg_root
      \/ is_layer (_get_layer is_layer e) = true)
  /\ In (_get_layer is_layer e) (e :: ancestors e)
  /\ _get_layer is_layer (_get_layer is_layer e) = _get_layer is_layer e
  /\ (forall parent,
        _get_parent_layer is_layer e = Some parent ->
        is_layer parent = true
        /\ In parent (ancestors e)
        /\ (length parent < length e)%nat).
Proof.
  assert (Hself : forall l, is_layer l = true -> _get_layer is_layer l = l).
  { intros l Hl. unfold _get_layer. cbn [List.find]. now rewrite Hl. }
  split; [apply Hself | split; [| split; [| split; [| split]]]].
  - intros Hn. unfold _get_layer, _get_parent_layer. cbn [List.find].
    now rewrite Hn.
  - unfold _get_layer.
    destruct (List.find is_layer (e :: ancestors e)) as [l |] eqn:Hfind;
      [| now left].
    right. now apply find_some in Hfind.
  - unfold _get_layer.
    destruct (List.find is_layer (e :: ancestors e)) as [l |] eqn:Hfind.
    + now apply find_some in Hfind.
    + apply root_among_ancestors.
  - unfold _get_layer at 2 3.
    destruct (List.find is_layer (e :: ancestors e)) as [l |] eqn:Hfind.
    + apply Hself. now apply find_some in Hfind.
    + pose proof (find_none _ _ Hfind svg_root (root_among_ancestors e)) as Hr.
      unfold _get_layer, svg_root in *. cbn [ancestors List.find].
      now rewrite Hr.
  - intros parent Hp. unfold _get_parent_layer in Hp.
    apply find_some in Hp. destruct Hp as [Hin Hl].
    split; [exact Hl | split; [exact Hin | now apply ancestors_shorter]].
Qed.

(** A lookup either returns no transform and leaves the manager as it is,
    or returns a transform that is in the cache afterwards. *)
Lemma get_transform_for_layer_outcome (self : OrientationManager)
  (layer : element) :
  ((forall transform,
       fst (get_transform_for_layer is_layer self layer)
       <> Return (Some transform))
   /\ snd (get_transform_for_layer is_layer self layer) = self)
  \/ (exists transform,
        fst (get_transform_for_layer is_layer self layer)
        = Return (Some transform)
        /\ transforms (snd (get_transform_for_layer is_layer self layer))
           !! layer = Some transform).
Proof.
  unfold get_transform_for_layer.
  destruct (transforms self !! layer) as [cached |] eqn:Hc.
  - right. exists cached. now split.
  - destruct (lookup_points is_layer (orientation_points self) layer)
      as [[points |] |]; try (left; split; [discriminate | reflexivity]).
    destruct (length points <? 2)%nat;
      [left; split; [discriminate | reflexivity] |].
    destruct (calculate_transform points) as [transform |];
      [| left; split; [discriminate | reflexivity]].
    right. exists transform. split; [reflexivity |].
    cbn [snd transforms]. apply lookup_insert_eq.
Qed.

(** X15. The lookup memoizes: a second lookup for the same layer returns
    what the first returned and changes nothing more; and once a layer has
    a transform, every later lookup returns that transform, whatever
    [find_orientation_points] has found in between. *)
Theorem get_transform_for_layer_memoized (self : OrientationManager)
  (layer : element) :
  let first := get_transform_for_layer is_layer self layer in
  get_transform_for_layer is_layer (snd first) layer = first
  /\ (forall transform groups,
        fst first = Return (Some transform) ->
        fst (get_transform_for_layer is_layer
               (snd (find_orientation_points is_layer (snd first) groups))
               layer)
        = Return (Some transform)).
Proof.
  cbv zeta.
  assert (Hcached : forall s cached,
             transforms s !! layer = Some cached ->
             get_transform_for_layer is_layer s layer
             = (Return (Some cached), s)).
  { intros s cached Hc. unfold get_transform_for_layer. now rewrite Hc. }
  destruct (get_transform_for_layer_outcome self layer)
    as [[Hnone Hsame] | (transform & Hfst & Hcache)].
  - split.
    + rewrite Hsame. reflexivity.
    + intros transform groups Hfst. now destruct (Hnone transform).
  - split.
    + rewrite (Hcached _ _ Hcache), <- Hfst. symmetry.
      apply surjective_pairing.
    + intros t groups Ht. rewrite Hfst in Ht. injection Ht as <-.
      now rewrite (Hcached _ transform).
Qed.

End Layers.

Lemma get_layer_nearest_witness :
  nested_layers inner_layer = true
  /\ _get_layer nested_layers inner_layer = inner_layer.
Proof.
  split; [reflexivity |].
  exact (proj1 (get_layer_nearest nested_layers inner_layer) eq_refl).
Defined.

(** The lookup of the example: the root has the example calibration. *)
Lemma example_lookup :
  get_transform_for_layer no_layers example_manager svg_root
  = (Return (Some (solved_transform (0, 0) (0, 0, 0) (100, 0) (50, 0, 0))),
     mkManager (orientation_points example_manager)
       (<[ svg_root := solved_transform (0, 0) (0, 0, 0) (100, 0) (50, 0, 0) ]>
          (transforms example_manager))).
Proof.
  unfold get_transform_for_layer.
  replace (transforms example_manager !! svg_root) with (@None Transform)
    by reflexivity.
  rewrite (lookup_points_attached no_layers _ svg_root example_calibration [])
    by apply lookup_insert_eq.
  unfold example_calibration. cbn [length Nat.ltb Nat.leb].
  rewrite calculate_transform_apart; [reflexivity |].
  pose proof example_apart. lra.
Qed.

Lemma get_transform_for_layer_memoized_witness :
  fst (get_transform_for_layer no_layers example_manager svg_root)
  = Return (Some (solved_transform (0, 0) (0, 0, 0) (100, 0) (50, 0, 0)))
  /\ fst (get_transform_for_layer no_layers
            (snd (find_orientation_points no_layers
                    (snd (get_transform_for_layer no_layers example_manager
                            svg_root)) []))
            svg_root)
     = Return (Some (solved_transform (0, 0) (0, 0, 0) (100, 0) (50, 0, 0))).
Proof.
  assert (H : fst (get_transform_for_layer no_layers example_manager svg_root)
              = Return (Some (solved_transform (0, 0) (0, 0, 0) (100, 0)
                                (50, 0, 0))))
    by now rewrite example_lookup.
  split; [exact H |].
  exact (proj2 (get_transform_for_layer_memoized no_layers example_manager
                  svg_root) _ [] H).
Defined.

Lemma dist_nonneg (a b : point) : 0 <= dist a b.
Proof. apply sqrt_pos. Qed.

Lemma dist_zero (a b : point) : dist a b = 0 <-> a = b.
Proof.
  split.
  - intros H. unfold dist in H. apply sqrt_eq_0 in H; [| apply sum_sq_nonneg].
    destruct a as [ax ay], b as [bx b_y]; cbn [fst snd] in H.
    assert (Hsq : forall u v : R, u ^ 2 + v ^ 2 = 0 -> u = 0 /\ v = 0)
      by (intros u v Huv; split; nra).
    destruct (Hsq _ _ H). f_equal; lra.
  - intros ->. apply dist_same.
Qed.

(** X16. When the two drawing points are at least 1e-6 apart the solver
    always returns a transform, with one scale for both axes that is never
    negative; the machine points are not examined: if they coincide the
    transform has the scale 0, and only then. *)
Theorem calculate_transform_scale (d1 d2 : point) (m1 m2 : R * R * R)
  (rest : list correspondence) :
  1 / 1000000 <= dist d1 d2 ->
  exists scale deg,
    calculate_transform ((d1, m1) :: (d2, m2) :: rest)
    = Some [Translate (- fst d1) (- snd d1); Scale scale scale; Rotate deg;
            Translate (fst (fst m1)) (snd (fst m1))]
    /\ 0 <= scale
    /\ (scale = 0 <-> machine_xy m1 = machine_xy m2).
Proof.
  intros Hd.
  exists (solved_scale d1 m1 d2 m2), (degrees (solved_rotation d1 m1 d2 m2)).
  split; [apply calculate_transform_apart; lra |].
  unfold solved_scale.
  pose proof (dist_nonneg (machine_xy m2) (machine_xy m1)) as Hm.
  split.
  - apply Rmult_le_pos; [exact Hm |].
    apply Rlt_le, Rinv_0_lt_compat. lra.
  - rewrite <- (dist_zero (machine_xy m1) (machine_xy m2)), (dist_sym (machine_xy m1)).
    split.
    + intros Hs.
      replace (dist (machine_xy m2) (machine_xy m1))
        with (dist (machine_xy m2) (machine_xy m1) / dist d1 d2 * dist d1 d2)
        by (field; lra).
      rewrite Hs. ring.
    + intros ->. unfold Rdiv. ring.
Qed.

Lemma calculate_transform_scale_witness :
  1 / 1000000 <= dist (0, 0) (100, 0)
  /\ exists scale deg,
       calculate_transform [((0, 0), (7, 7, 0)); ((100, 0), (7, 7, 0))]
       = Some [Translate (- 0) (- 0); Scale scale scale; Rotate deg;
               Translate 7 7]
       /\ scale = 0.
Proof.
  split; [exact example_apart |].
  destruct (calculate_transform_scale (0, 0) (100, 0) (7, 7, 0) (7, 7, 0) []
              example_apart) as (scale & deg & Hsolve & _ & Hzero).
  exists scale, deg. split; [exact Hsolve | now apply Hzero].
Defined.

(** *** What [find_orientation_points] stores *)

Section Finding.
Variable is_layer : element -> bool.

Lemma register_groups_lookup
  (groups : list (element * list (option correspondence))) :
  forall (found : gmap element (list (list correspondence))) (l : element),
    fold_left (register_group is_layer) groups found !! l
    = match accepted_for is_layer l groups with
      | [] => found !! l
      | accepted => Some (default [] (found !! l) ++ accepted)
      end.
Proof.
  induction groups as [| group groups IH]; intros found l; [reflexivity |].
  cbn [fold_left]. rewrite IH. unfold accepted_for at 2. cbn [omap list_omap].
  fold (accepted_for is_layer l groups).
  unfold register_group.
  destruct (_parse_orientation_group (snd group)) as [points |] eqn:Hparse.
  - destruct (decide (_get_layer is_layer (fst group) = l)) as [-> | Hne].
    + rewrite lookup_insert_eq.
      destruct (accepted_for is_layer _ groups); cbn;
        [reflexivity | now rewrite <- app_assoc].
    + rewrite lookup_insert_ne by exact Hne. reflexivity.
  - destruct (decide (_get_layer is_layer (fst group) = l)); reflexivity.
Qed.

Lemma accepted_for_nil (l : element)
  (groups : list (element * list (option correspondence))) :
  accepted_for is_layer l groups = []
  <-> (forall group,
         In group groups ->
         _get_layer is_layer (fst group) = l ->
         _parse_orientation_group (snd group) = None).
Proof.
  induction groups as [| group groups IH]; cbn [In].
  - split; [intros _ g [] | reflexivity].
  - unfold accepted_for. cbn [omap list_omap].
    fold (accepted_for is_layer l groups).
    destruct (decide (_get_layer is_layer (fst group) = l)) as [Heq | Hne].
    + destruct (_parse_orientation_group (snd group)) as [points |] eqn:Hp.
      * split; [discriminate |].
        intros Hall. specialize (Hall group (or_introl eq_refl) Heq).
        congruence.
      * rewrite IH. split.
        -- intros Hall g [<- | Hin] Hg; [exact Hp | now apply Hall].
        -- intros Hall g Hin. apply Hall. now right.
    + rewrite IH. split.
      * intros Hall g [<- | Hin] Hg; [contradiction | now apply Hall].
      * intros Hall g Hin. apply Hall. now right.
Qed.

Lemma some_group_parses
  (groups : list (element * list (option correspondence))) :
  (exists group,
      In group groups /\ _parse_orientation_group (snd group) <> None)
  \/ (forall group,
        In group groups -> _parse_orientation_group (snd group) = None).
Proof.
  induction groups as [| group groups [(g & Hin & Hg) | IH]].
  - right. intros g [].
  - left. exists g. split; [now right | exact Hg].
  - destruct (_parse_orientation_group (snd group)) as [points |] eqn:Hp.
    + left. exists group. split; [now left | congruence].
    + right. intros g [<- | Hin]; [exact Hp | now apply IH].
Qed.

(** X14. [find_orientation_points] forgets what was stored, keeps the
    cache of transforms, and stores under each layer exactly the groups
    of that layer that parse to two or three points, in document order,
    and nothing under a layer without such a group; it returns true
    exactly when some group parses to two or three points, and
    [has_orientation_points] returns true exactly for the layers with such
    a group. *)
Theorem find_orientation_points_stores (self : OrientationManager)
  (groups : list (element * list (option correspondence))) :
  let found :=
    orientation_points (snd (find_orientation_points is_layer self groups)) in
  (forall l,
      found !! l = match accepted_for is_layer l groups with
                   | [] => None
                   | accepted => Some accepted
                   end)
  /\ transforms (snd (find_orientation_points is_layer self groups))
     = transforms self
  /\ (fst (find_orientation_points is_layer self groups) = true
      <-> exists group,
            In group groups /\ _parse_orientation_group (snd group) <> None)
  /\ (forall layer,
        fst (has_orientation_points is_layer self groups layer) = true
        <-> accepted_for is_layer layer groups <> []).
Proof.
  cbv zeta. unfold has_orientation_points, find_orientation_points;
    cbn [fst snd orientation_points transforms].
  assert (Hlookup : forall l,
             fold_left (register_group is_layer) groups ∅ !! l
             = match accepted_for is_layer l groups with
               | [] => None
               | accepted => Some accepted
               end).
  { intros l. rewrite register_groups_lookup, lookup_empty. cbn [default].
    now destruct (accepted_for is_layer l groups). }
  split; [exact Hlookup | split; [reflexivity | split]].
  - rewrite negb_true_iff, bool_decide_eq_false, map_empty. split.
    + intros Hne.
      destruct (some_group_parses groups) as [H | H]; [exact H |].
      exfalso. apply Hne. intros l. rewrite Hlookup.
      replace (accepted_for is_layer l groups) with (@nil (list correspondence));
        [reflexivity |].
      symmetry. apply accepted_for_nil. intros group Hin _. now apply H.
    + intros (group & Hin & Hp) Hall.
      specialize (Hall (_get_layer is_layer (fst group))).
      rewrite Hlookup in Hall.
      destruct (accepted_for is_layer (_get_layer is_layer (fst group)) groups)
        eqn:Hacc; [| discriminate].
      pose proof (proj1 (accepted_for_nil _ _) Hacc group Hin eq_refl).
      contradiction.
  - intros layer. rewrite Hlookup.
    destruct (accepted_for is_layer layer groups); split;
      try discriminate; try reflexivity; intros H; now destruct H.
Qed.

End Finding.

(** ** The emitted program *)

Section Program.
Variable svg : document.
Variable opts : options.

Lemma segment_to_gcode_cuts (sp1 sp2 : node) :
  Forall cuts (segment_to_gcode svg opts sp1 sp2).
Proof.
  pose proof (segment_to_gcode_never_G02 svg opts sp1 sp2) as Hno.
  unfold segment_to_gcode in *.
  destruct (String.eqb (curve_mode opts) "biarc");
    apply List.Forall_forall; intros l Hin;
    apply in_map_iff in Hin; destruct Hin as (a & <- & Ha).
  - destruct a as [s e | s e c angle]; [now left |].
    right. rewrite List.Forall_forall in Hno.
    apply (Hno (arc_to_gcode svg opts (arc s e c angle))).
    + apply in_map_iff. now exists (arc s e c angle).
    + reflexivity.
  - now left.
Qed.

Lemma tool_state_cuts (lines rest : list gline) :
  Forall cuts lines ->
  tool_state true (lines ++ rest) = tool_state true rest.
Proof.
  induction 1 as [| l lines Hl _ IH]; [reflexivity |].
  cbn [List.app tool_state].
  destruct Hl as [Hl | Hl]; unfold is_motion; rewrite Hl; cbn; exact IH.
Qed.

Lemma Forall_concat_segments (subpath : list node) :
  Forall cuts
    (concat (map (fun s => segment_to_gcode svg opts (fst s) (snd s))
                 (segments subpath))).
Proof.
  apply Forall_concat_map. intros s _. apply segment_to_gcode_cuts.
Qed.

(** X17. In every program [_path_to_gcode] writes the tool is off at the
    start and at the end, every rapid move G0 is made with the tool off and
    every G1 or arc with the tool on; M03 and M05 alternate, one pair for
    each subpath of at least two nodes, with one G0 before each pair. *)
Theorem path_to_gcode_tool_safe (csp : list (list node)) :
  tool_state false (_path_to_gcode svg opts csp) = Some false
  /\ count_word "G0" (_path_to_gcode svg opts csp)
     = length (emitted_subpaths csp)
  /\ count_word "M03" (_path_to_gcode svg opts csp)
     = length (emitted_subpaths csp)
  /\ count_word "M05" (_path_to_gcode svg opts csp)
     = length (emitted_subpaths csp).
Proof.
  assert (Hcount : forall w lines,
             Forall cuts lines ->
             w <> "G1"%string -> w <> "G03"%string ->
             List.filter (fun l => String.eqb (word l) w) lines = []).
  { intros w lines Hall H1 H3.
    induction Hall as [| l lines Hl _ IH]; [reflexivity |].
    cbn [List.filter].
    destruct (String.eqb_spec (word l) w) as [Heq | _]; [| exact IH].
    destruct Hl as [Hl | Hl]; congruence. }
  unfold _path_to_gcode, count_word, emitted_subpaths.
  induction csp as [| subpath csp (IHs & IH0 & IH3 & IH5)];
    [repeat split |].
  cbn [List.map List.concat List.filter].
  rewrite !List.filter_app, !length_app, IH0, IH3, IH5.
  destruct subpath as [| first [| second rest]];
    try (cbn [subpath_to_gcode List.app length Nat.leb List.filter];
         repeat split; [exact IHs]).
  cbn [length Nat.leb].
  unfold subpath_to_gcode.
  repeat split.
  - cbn [List.app tool_state word String.eqb Ascii.eqb Bool.eqb].
    rewrite <- app_assoc, tool_state_cuts by apply Forall_concat_segments.
    cbn [List.app tool_state word String.eqb Ascii.eqb Bool.eqb]. exact IHs.
  - cbn [List.filter word String.eqb Ascii.eqb Bool.eqb].
    rewrite List.filter_app, Hcount
      by (try apply Forall_concat_segments; discriminate).
    reflexivity.
  - cbn [List.filter word String.eqb Ascii.eqb Bool.eqb].
    rewrite List.filter_app, Hcount
      by (try apply Forall_concat_segments; discriminate).
    reflexivity.
  - cbn [List.filter word String.eqb Ascii.eqb Bool.eqb].
    rewrite List.filter_app, Hcount
      by (try apply Forall_concat_segments; discriminate).
    reflexivity.
Qed.

Lemma segments_length (subpath : list node) :
  length (segments subpath) = (length subpath - 1)%nat.
Proof.
  induction subpath as [| sp1 [| sp2 rest] IH]; [reflexivity | reflexivity |].
  cbn [segments length] in *. rewrite IH. lia.
Qed.

Lemma concat_map_length_const {A B : Type} (f : A -> list B) (k : nat)
  (l : list A) :
  (forall a, length (f a) = k) ->
  length (concat (map f l)) = (length l * k)%nat.
Proof.
  intros Hk. induction l as [| a l IH]; [reflexivity |].
  cbn [List.map List.concat length]. rewrite length_app, Hk, IH. lia.
Qed.

Lemma concat_map_length_le {A B : Type} (f : A -> list B) (k : nat)
  (l : list A) :
  (forall a, (1 <= length (f a) <= k)%nat) ->
  (length l <= length (concat (map f l)) <= length l * k)%nat.
Proof.
  intros Hk. induction l as [| a l IH]; [cbn; lia |].
  cbn [List.map List.concat length]. rewrite length_app.
  specialize (Hk a). lia.
Qed.

(** X18. A subpath of fewer than two nodes is written as nothing.  A
    subpath of k >= 2 nodes is written in polyline mode as exactly
    3 + (k - 1) * max(2, polyline_segments) lines, and in biarc mode as at
    least 3 + (k - 1) and at most 3 + (k - 1) * 2 * 2^max_depth lines. *)
Theorem subpath_to_gcode_size (subpath : list node) :
  ((length subpath < 2)%nat -> subpath_to_gcode svg opts subpath = [])
  /\ ((2 <= length subpath)%nat ->
      String.eqb (curve_mode opts) "biarc" = false ->
      length (subpath_to_gcode svg opts subpath)
      = (3 + (length subpath - 1) * Z.to_nat (Z.max 2 (polyline_segments opts)))%nat)
  /\ ((2 <= length subpath)%nat ->
      String.eqb (curve_mode opts) "biarc" = true ->
      (3 + (length subpath - 1)
       <= length (subpath_to_gcode svg opts subpath)
       <= 3 + (length subpath - 1)
              * (2 * 2 ^ Z.to_nat (biarc_max_split_depth opts)))%nat).
Proof.
  split; [| split].
  - destruct subpath as [| first [| second rest]]; cbn [length];
      [reflexivity | reflexivity | lia].
  - intros Hlen Hmode.
    destruct subpath as [| first [| second rest]]; cbn [length] in Hlen;
      [lia | lia |].
    unfold subpath_to_gcode. cbn [length]. rewrite length_app.
    rewrite (concat_map_length_const _
               (Z.to_nat (Z.max 2 (polyline_segments opts)))).
    + rewrite segments_length. cbn [length]. lia.
    + intros s. rewrite segment_to_gcode_polyline by exact Hmode.
      rewrite length_map, range_length. unfold poly_segments. f_equal. lia.
  - intros Hlen Hmode.
    destruct subpath as [| first [| second rest]]; cbn [length] in Hlen;
      [lia | lia |].
    unfold subpath_to_gcode. cbn [length]. rewrite length_app.
    pose proof (concat_map_length_le
                  (fun s => segment_to_gcode svg opts (fst s) (snd s))
                  (2 * 2 ^ Z.to_nat (biarc_max_split_depth opts))
                  (segments (first :: second :: rest))) as Hle.
    rewrite segments_length in Hle. cbn [length] in Hle |- *.
    assert (Hseg : forall s : node * node,
               (1 <= length (segment_to_gcode svg opts (fst s) (snd s))
                <= 2 * 2 ^ Z.to_nat (biarc_max_split_depth opts))%nat).
    { intros s. unfold segment_to_gcode. rewrite Hmode, length_map.
      unfold biarc_approximation. split.
      - pose proof (split_and_approximate_chained _
                      (biarc_max_split_depth opts) (fst s) (snd s) 0 eq_refl)
          as [Hne _].
        destruct (split_and_approximate _ _ _ _); [contradiction | cbn; lia].
      - apply split_and_approximate_length. f_equal. lia. }
    specialize (Hle Hseg). lia.
Qed.

(** X20. [_path_to_gcode] writes nothing exactly when no subpath has two
    nodes; in particular for the empty path. *)
Theorem path_to_gcode_empty (csp : list (list node)) :
  _path_to_gcode svg opts csp = []
  <-> Forall (fun subpath => (length subpath < 2)%nat) csp.
Proof.
  unfold _path_to_gcode.
  induction csp as [| subpath csp IH]; cbn [List.map List.concat].
  - split; [constructor | reflexivity].
  - split.
    + intros H. apply app_eq_nil in H. destruct H as [Hs Hrest].
      constructor; [| now apply IH].
      destruct subpath as [| first [| second rest]]; cbn [length];
        [lia | lia | discriminate Hs].
    + intros H. inversion H as [| ? ? Hs Hrest]; subst.
      rewrite (proj2 IH Hrest), app_nil_r.
      destruct subpath as [| first [| second rest]]; cbn [length] in Hs;
        [reflexivity | reflexivity | lia].
Qed.

Lemma chained_last (a b : point) (l : list primitive) :
  l <> [] -> chained a l b ->
  exists init final, l = init ++ [final] /\ primitive_end final = b.
Proof.
  revert a. induction l as [| p l IH]; intros a Hne Hch; [contradiction |].
  destruct Hch as [_ Hch].
  destruct l as [| q l].
  - exists [], p. split; [reflexivity | exact Hch].
  - destruct (IH _ ltac:(discriminate) Hch) as (init & final & -> & Hend).
    exists (p :: init), final. split; [reflexivity | exact Hend].
Qed.

Lemma csp_at_t_one (sp1 sp2 : node) : csp_at_t sp1 sp2 1 = sp_1 sp2.
Proof.
  destruct sp1 as [h1 [x0 y0] [x1 y1]], sp2 as [[x2 y2] [x3 y3] h2].
  unfold csp_at_t, csp_parameterize, bezier_parameterize; cbn.
  f_equal; ring.
Qed.

Lemma range_last (n : Z) :
  (1 <= n)%Z -> range 1 (n + 1) = range 1 n ++ [n].
Proof.
  intros Hn. unfold range.
  replace (Z.to_nat (n + 1 - 1)) with (S (Z.to_nat (n - 1))) by lia.
  rewrite seq_S, map_app. cbn [List.map]. do 3 f_equal. lia.
Qed.

(** X19. In both modes the lines written for a segment are at least one,
    and the last of them goes to the end anchor of the segment, so that
    the next segment starts where the tool is. *)
Theorem segment_to_gcode_reaches_anchor (sp1 sp2 : node) :
  exists init final,
    segment_to_gcode svg opts sp1 sp2 = init ++ [final]
    /\ target final = Some (out_x svg (sp_1 sp2), out_y svg (sp_1 sp2)).
Proof.
  unfold segment_to_gcode.
  destruct (String.eqb (curve_mode opts) "biarc").
  - unfold biarc_approximation.
    destruct (split_and_approximate_chained _ (biarc_max_split_depth opts)
                sp1 sp2 0 eq_refl) as [Hne Hch].
    destruct (chained_last _ _ _ Hne Hch) as (init & final & -> & Hend).
    exists (map (arc_to_gcode svg opts) init), (arc_to_gcode svg opts final).
    split; [now rewrite map_app |].
    destruct final as [s e | s e c angle]; cbn in Hend; subst; reflexivity.
  - assert (Hn : (1 <= poly_segments opts)%Z) by (unfold poly_segments; lia).
    rewrite (range_last _ Hn), map_app. cbn [List.map].
    eexists _, _. split; [reflexivity |].
    replace (IZR (poly_segments opts) / IZR (poly_segments opts)) with 1.
    + rewrite csp_at_t_one. reflexivity.
    + field. apply not_0_IZR. lia.
Qed.

End Program.

Lemma subpath_to_gcode_size_witness :
  (2 <= length [straight_1; straight_2])%nat
  /\ String.eqb (curve_mode (polyline_options 4)) "biarc" = false
  /\ length (subpath_to_gcode unit_document (polyline_options 4)
               [straight_1; straight_2])
     = (3 + (length [straight_1; straight_2] - 1)
            * Z.to_nat (Z.max 2 (polyline_segments (polyline_options 4))))%nat.
Proof.
  assert (Hlen : (2 <= length [straight_1; straight_2])%nat) by (cbn; lia).
  split; [exact Hlen | split; [reflexivity |]].
  exact (proj1 (proj2 (subpath_to_gcode_size unit_document (polyline_options 4)
                         [straight_1; straight_2])) Hlen eq_refl).
Defined.

Lemma path_to_gcode_empty_witness :
  Forall (fun subpath : list node => (length subpath < 2)%nat) [[]; [straight_1]]
  /\ _path_to_gcode unit_document biarc_options [[]; [straight_1]] = [].
Proof.
  assert (H : Forall (fun subpath : list node => (length subpath < 2)%nat)
                [[]; [straight_1]])
    by (repeat constructor).
  split; [exact H |].
  exact (proj2 (path_to_gcode_empty unit_document biarc_options
                  [[]; [straight_1]]) H).
Defined.
